(** * RAPID metaprogramming snippet: the inheritance-tree scan

    A shallow embedding of [rapid_snippit.cpp].  The program declares a tree
    of nodes as a C++ type ([InternalNode<Name, ChildNodes...>] inherits from
    every child, [LeafNode<Name, T>] holds one scalar) and walks it with
    [inher_tree_scan], a compile-time recursion over the [mpl::vector] of the
    base classes that calls [Func::apply<Parent, Child>] for each of them.

    The embedding keeps the two levels of the source apart:
    - [ty] is the type level: what the templates are instantiated with;
    - [obj] is the run-time level: an object with its base-class subobjects.

    Every operation is a function of the static type it is instantiated at
    (a [Fixpoint] on [ty], as template instantiation is) and of the objects it
    receives by reference.  A reference parameter is passed in and handed
    back; a result of [None] stands for an instantiation that the compiler
    refuses (a missing or ambiguous base class, a reference that cannot
    bind).  The two operands of [+=] are two objects.

    The scalar types, their arithmetic and output, and the random number
    library are parameters ([Platform]); the statements hold for each
    instance, and the tree of [main] is run on an executable one. *)

From Stdlib Require Import List String Ascii ZArith Bool Arith Lia.
From Stdlib Require Import DecimalString SpecFloat.
Import ListNotations.

(** ** The option monad *)

Definition bind {A B : Type} (m : option A) (k : A -> option B) : option B :=
  match m with
  | Some a => k a
  | None => None
  end.

Notation "x <- m ;; k" := (bind m (fun x => k))
  (at level 61, m at next level, right associativity).

(** ** What the program takes from the language and its standard library

    [LeafNode<Name, T>] is generic in the scalar type [T]: it needs [T()],
    [+=], a conversion from [double] and [operator<<].  [rand_gen] is generic
    in the generator and uses [std::normal_distribution<>].  These are the
    parameters of the development. *)

Class Platform : Type := {
  scalar : Type;                      (* the scalar types T *)
  scalar_eq_dec : forall s t : scalar, {s = t} + {s <> t};
  value : Type;                       (* what a T holds *)
  value_init : scalar -> value;       (* T() *)
  plus_assign : scalar -> value -> value -> value;   (* lhs += rhs at type T *)
  sample : Type;                      (* double *)
  static_cast : scalar -> sample -> value;           (* static_cast<T>(double) *)
  insert : scalar -> value -> string;                (* the characters of cout << val *)
  Generator : Type;
  (* dist(gen) for a fresh std::normal_distribution<> dist {mean, stddev} *)
  normal_distribution : Z -> Z -> Generator -> sample * Generator
}.

(** Standard output: the lines written so far, each one closed by
    [std::endl]. *)
Definition ostream : Type := list string.

Section Snippet.

Context {PF : Platform}.

(** ** The type level *)

(** [LeafNode<Name, T>] and [InternalNode<Name, ChildNodes...>]; an
    [mpl::string] is its characters, an [mpl::vector] a list. *)
#[local] Unset Elimination Schemes.
Inductive ty : Type :=
| LeafNode (Name : string) (T : scalar)
| InternalNode (Name : string) (ChildNodes : list ty).
#[local] Set Elimination Schemes.

(** [using name = Name;] *)
Definition name (t : ty) : string :=
  match t with
  | LeafNode Name _ => Name
  | InternalNode Name _ => Name
  end.

(** [using base_type = mpl::vector< ChildNodes... >;] only [InternalNode]
    declares it. *)
Definition base_type (t : ty) : option (list ty) :=
  match t with
  | LeafNode _ _ => None
  | InternalNode _ ChildNodes => Some ChildNodes
  end.

(** [mpl::empty] *)
Definition empty (Bases : list ty) : bool :=
  match Bases with
  | [] => true
  | _ :: _ => false
  end.

(** Two types are the same type. *)
Fixpoint ty_eqb (s t : ty) {struct s} : bool :=
  match s, t with
  | LeafNode n T, LeafNode m U =>
      String.eqb n m && (if scalar_eq_dec T U then true else false)
  | InternalNode n cs, InternalNode m ds =>
      String.eqb n m &&
      (fix all2 (l1 l2 : list ty) {struct l1} : bool :=
         match l1, l2 with
         | [], [] => true
         | c :: l1', d :: l2' => ty_eqb c d && all2 l1' l2'
         | _, _ => false
         end) cs ds
  | _, _ => false
  end.

(** The class itself and all its base classes, direct and indirect, one entry
    per base-class subobject, in the order of declaration. *)
Fixpoint subtypes (t : ty) : list ty :=
  t :: match t with
       | LeafNode _ _ => []
       | InternalNode _ ChildNodes => flat_map subtypes ChildNodes
       end.

Definition occurrences (c : ty) (l : list ty) : nat :=
  List.length (filter (fun s => ty_eqb s c) l).

(** The conversion from [Parent&] to [Child&] is well-formed when [Parent]
    has exactly one subobject of type [Child]. *)
Definition unambiguous_base (Child Parent : ty) : bool :=
  Nat.eqb (occurrences Child (subtypes Parent)) 1.

(** A tree type whose member functions instantiate: every internal node can
    be converted to each of its direct bases. *)
Fixpoint well_formed (t : ty) : bool :=
  match t with
  | LeafNode _ _ => true
  | InternalNode _ ChildNodes =>
      forallb (fun c => unambiguous_base c t && well_formed c) ChildNodes
  end.

(** The leaves a type declares, in declaration order (depth first). *)
Fixpoint leaf_decls (t : ty) : list (string * scalar) :=
  match t with
  | LeafNode Name T => [(Name, T)]
  | InternalNode _ ChildNodes => flat_map leaf_decls ChildNodes
  end.

Definition leaf_names (t : ty) : list string := map fst (leaf_decls t).

(** ** The run-time level *)

(** An object: a leaf holds [val]; an internal node holds one base-class
    subobject per child, in declaration order. *)
#[local] Unset Elimination Schemes.
Inductive obj : Type :=
| MkLeaf (Name : string) (T : scalar) (val : value)
| MkInternal (Name : string) (bases : list obj).
#[local] Set Elimination Schemes.

Fixpoint type_of (o : obj) : ty :=
  match o with
  | MkLeaf Name T _ => LeafNode Name T
  | MkInternal Name bases => InternalNode Name (map type_of bases)
  end.

Fixpoint subobjects (o : obj) : list obj :=
  o :: match o with
       | MkLeaf _ _ _ => []
       | MkInternal _ bases => flat_map subobjects bases
       end.

(** The values of the leaves, in declaration order. *)
Fixpoint leaf_values (o : obj) : list value :=
  match o with
  | MkLeaf _ _ val => [val]
  | MkInternal _ bases => flat_map leaf_values bases
  end.

(** [template< typename Child, typename Parent > Child& get(Parent& p)
    { return p; }]: the implicit conversion to the base class [Child].  It
    yields the one subobject of [p] of that type (which is [p] itself when
    [Child] is its own type), and is ill-formed when there is none or more
    than one. *)
Definition get (Child : ty) (p : obj) : option obj :=
  match filter (fun s => ty_eqb (type_of s) Child) (subobjects p) with
  | [c] => Some c
  | _ => None
  end.

(** [get] returns a reference: what is done to the [Child] is done inside
    [p].  [put Child c p] is [p] after its [Child] subobject became [c]. *)
Fixpoint put (Child : ty) (c : obj) (p : obj) : obj :=
  if ty_eqb (type_of p) Child then c
  else match p with
       | MkLeaf _ _ _ => p
       | MkInternal Name bases => MkInternal Name (map (put Child c) bases)
       end.

(** ** A recursively implemented scan for inheritance trees *)

Section Scan.

(** The state that [p] and the forwarded [ps...] refer to. *)
Context {World : Type}.
(** [Func::template apply<Parent, Child>(p, ps...)] *)
Variable apply : ty -> ty -> World -> option World.
Variable Parent : ty.

(** The two overloads of [inher_tree_scan_recur], selected by the tag:
    [mpl::bool_<true>] does nothing; [mpl::bool_<false>] takes
    [current_base = deref<begin<Bases>>] and
    [remaining_bases = pop_front<Bases>], calls [apply] and goes on with
    the tag [mpl::empty<remaining_bases>].  With the tag [false] on an
    empty vector there is no [current_base]. *)
Fixpoint inher_tree_scan_recur (tag : bool) (Bases : list ty) (w : World)
  {struct Bases} : option World :=
  if tag then Some w
  else match Bases with
       | [] => None
       | current_base :: remaining_bases =>
           w' <- apply Parent current_base w ;;
           inher_tree_scan_recur (empty remaining_bases) remaining_bases w'
       end.

(** [inher_tree_scan]: the initial call, with [Bases = Parent::base_type]
    and the tag [mpl::empty<Parent::base_type>]. *)
Definition inher_tree_scan (w : World) : option World :=
  match base_type Parent with
  | Some Bases => inher_tree_scan_recur (empty Bases) Bases w
  | None => None
  end.

End Scan.

(** ** Generic functor templates and the two node templates

    A member function of [Child] called on [get<Child>(a)] is chosen by the
    type [Child]: the functors below take the member function as a function
    of the type, and the member functions tie the knot by recursion on the
    type they are instantiated at. *)

(** [std::string] concatenation. *)
Local Notation "s +++ t" := (String.append s t)
  (at level 60, right associativity).

(** [if (prefix != "") prefix += " ";] *)
Definition add_space (prefix : string) : string :=
  if String.eqb prefix "" then prefix else prefix +++ " ".

(** [struct add_eq]: [apply(Parent& a, Parent& b)] does
    [get<Child>(a) += get<Child>(b)].  The forwarded argument has to bind to
    [Parent& b]. *)
Definition add_eq_apply (op_add_eq : ty -> obj -> obj -> option (obj * obj))
  (Parent Child : ty) (w : obj * obj) : option (obj * obj) :=
  let (a, arg) := w in
  b <- get Parent arg ;;
  ca <- get Child a ;;
  cb <- get Child b ;;
  r <- op_add_eq Child ca cb ;;
  Some (put Child (fst r) a, put Parent (put Child (snd r) b) arg).

(** [struct rand_gen_f]: [apply(Parent& a, Generator& g)] does
    [get<Child>(a).rand_gen(g)]. *)
Definition rand_gen_f_apply
  (rand_gen : ty -> obj -> Generator -> option (obj * Generator))
  (Parent Child : ty) (w : obj * Generator) : option (obj * Generator) :=
  let (a, g) := w in
  c <- get Child a ;;
  r <- rand_gen Child c g ;;
  Some (put Child (fst r) a, snd r).

(** [struct print_f]: [apply(Parent& a, std::string prefix)] does
    [get<Child>(a).print(prefix)]; [prefix] is taken by value, so the string
    that the scan forwards stays as it is. *)
Definition print_f_apply
  (print : ty -> obj -> string -> ostream -> option (obj * ostream))
  (Parent Child : ty) (w : obj * string * ostream)
  : option (obj * string * ostream) :=
  let '(a, prefix, cout) := w in
  c <- get Child a ;;
  r <- print Child c prefix cout ;;
  Some (put Child (fst r) a, prefix, snd r).

(** How an argument was handed to [inher_tree_scan]: as an lvalue ([Params]
    is deduced as [T&]) or as an rvalue ([Params] is deduced as [T]). *)
Inductive category : Type := lvalue | rvalue.

(** A [std::string] parameter taken by value and initialized from
    [std::forward<Params>(ps)]: what the callee gets, and what [ps] holds
    afterwards.  An lvalue is copied; an rvalue is moved from, which leaves
    the string empty in the implementations (the language only says valid
    and unspecified). *)
Definition pass_by_value (Params : category) (ps : string) : string * string :=
  match Params with
  | lvalue => (ps, ps)
  | rvalue => (ps, EmptyString)
  end.

(** [print_f::apply] as the scan calls it, at lines 94 and 101-102 with
    [std::forward<Params>(ps)...] each time: its [std::string prefix] is
    initialized from the forwarded string.  With an lvalue this is
    [print_f_apply]. *)
Definition print_f_apply_forwarded
  (print : ty -> obj -> string -> ostream -> option (obj * ostream))
  (Params : category) (Parent Child : ty) (w : obj * string * ostream)
  : option (obj * string * ostream) :=
  let '(a, ps, cout) := w in
  let (prefix, ps') := pass_by_value Params ps in
  c <- get Child a ;;
  r <- print Child c prefix cout ;;
  Some (put Child (fst r) a, ps', snd r).

(** [LeafNode() : val() {}] *)
Definition LeafNode_ctor (Name : string) (T : scalar) : obj :=
  MkLeaf Name T (value_init T).

(** [LeafNode& operator+=(LeafNode& rhs)]: [this->val += rhs.val]. *)
Definition LeafNode_add_eq (Name : string) (T : scalar) (self arg : obj)
  : option (obj * obj) :=
  rhs <- get (LeafNode Name T) arg ;;
  match self, rhs with
  | MkLeaf n t val, MkLeaf _ _ rhs_val =>
      Some (MkLeaf n t (plus_assign T val rhs_val), arg)
  | _, _ => None
  end.

(** [void print(std::string prefix = "")] of a leaf: one line on
    [std::cout]. *)
Definition LeafNode_print (Name : string) (T : scalar) (self : obj)
  (prefix : string) (cout : ostream) : option (obj * ostream) :=
  match self with
  | MkLeaf _ _ val =>
      let prefix := add_space prefix in
      Some (self, cout ++ [prefix +++ Name +++ " == " +++ insert T val])
  | MkInternal _ _ => None
  end.

(** [void rand_gen(Generator& gen)] of a leaf:
    [std::normal_distribution<> dist {100, 50}; val = static_cast<T>(dist(gen));] *)
Definition LeafNode_rand_gen (Name : string) (T : scalar) (self : obj)
  (gen : Generator) : option (obj * Generator) :=
  match self with
  | MkLeaf n t _ =>
      let (x, gen') := normal_distribution 100 50 gen in
      Some (MkLeaf n t (static_cast T x), gen')
  | MkInternal _ _ => None
  end.

(** The argument of [InternalNode::operator+=] binds to
    [InternalNode<RhsName, ChildNodes...>&]: [RhsName] is deduced from the
    argument's own type or from a base class of it, and the reference is to
    that subobject. *)
Definition is_InternalNode_of (ChildNodes : list ty) (t : ty) : bool :=
  match t with
  | LeafNode _ _ => false
  | InternalNode RhsName cs => ty_eqb t (InternalNode RhsName ChildNodes)
  end.

Definition deduce_RhsName (ChildNodes : list ty) (arg : obj) : option string :=
  match filter (fun s => is_InternalNode_of ChildNodes (type_of s))
               (subobjects arg) with
  | [rhs] => Some (name (type_of rhs))
  | _ => None
  end.

(** The default constructor: every base class is default constructed. *)
Fixpoint construct (t : ty) : obj :=
  match t with
  | LeafNode Name T => LeafNode_ctor Name T
  | InternalNode Name ChildNodes => MkInternal Name (map construct ChildNodes)
  end.

(** [operator+=] at the type [t] of [*this].  For an internal node:
    [inher_tree_scan< add_eq >( *this, rhs)]. *)
Fixpoint operator_add_eq (t : ty) (self arg : obj) {struct t}
  : option (obj * obj) :=
  match t with
  | LeafNode Name T => LeafNode_add_eq Name T self arg
  | InternalNode Name ChildNodes =>
      RhsName <- deduce_RhsName ChildNodes arg ;;
      rhs <- get (InternalNode RhsName ChildNodes) arg ;;
      w <- inher_tree_scan (add_eq_apply operator_add_eq)
             (InternalNode Name ChildNodes) (self, rhs) ;;
      Some (fst w, put (InternalNode RhsName ChildNodes) (snd w) arg)
  end.

(** [print] at the type [t] of [*this].  For an internal node: the prefix
    gets a space unless it is empty, then the node's own name, and
    [inher_tree_scan< print_f >( *this, prefix)]. *)
Fixpoint print (t : ty) (self : obj) (prefix : string) (cout : ostream)
  {struct t} : option (obj * ostream) :=
  match t with
  | LeafNode Name T => LeafNode_print Name T self prefix cout
  | InternalNode Name ChildNodes =>
      let prefix := add_space prefix in
      let prefix := prefix +++ Name in
      w <- inher_tree_scan (print_f_apply print)
             (InternalNode Name ChildNodes) (self, prefix, cout) ;;
      Some (fst (fst w), snd w)
  end.

(** [rand_gen] at the type [t] of [*this].  For an internal node:
    [inher_tree_scan< rand_gen_f<Generator> >( *this, g)]. *)
Fixpoint rand_gen (t : ty) (self : obj) (g : Generator) {struct t}
  : option (obj * Generator) :=
  match t with
  | LeafNode Name T => LeafNode_rand_gen Name T self g
  | InternalNode Name ChildNodes =>
      inher_tree_scan (rand_gen_f_apply rand_gen)
        (InternalNode Name ChildNodes) (self, g)
  end.

End Snippet.

(** ** main

    [main] declares its tree with the scalar types [int], [float], [double]
    and [long]: they are taken from the platform. *)

(** The character that ends a line. *)
Definition LF : string := String (Ascii.ascii_of_nat 10) EmptyString.

Section Program.

Context {PF : Platform}.
Variables c_int c_float c_double c_long : scalar.

(** [using Bar = InternalNode< mpl::string<'o','n','e'>, ... >;] *)
Definition Bar_on : ty :=
  InternalNode "one"
    [ LeafNode "A" c_int;
      LeafNode "B" c_float;
      InternalNode "two"
        [ LeafNode "D" c_double;
          InternalNode "three" [ LeafNode "E" c_long ] ];
      LeafNode "F" c_double;
      LeafNode "G" c_int ].

(** [main], from the generator as [std::mt19937 gen{rd()}] seeds it: the
    lines written and the exit code. *)
Definition main (gen : Generator) : option (ostream * Z) :=
  let foo := construct Bar_on in
  let bar := construct Bar_on in
  r <- rand_gen Bar_on bar gen ;;
  let (bar, gen) := r in
  r <- rand_gen Bar_on foo gen ;;
  let (foo, gen) := r in
  r <- print Bar_on bar "bar" [] ;;
  let (bar, cout) := r in
  let cout := cout ++ [EmptyString] in
  r <- print Bar_on foo "foo" cout ;;
  let (foo, cout) := r in
  let cout := cout ++ [EmptyString] in
  r <- operator_add_eq Bar_on bar foo ;;
  let (bar, foo) := r in
  let cout := cout ++ [String.append "bar += foo" LF] in
  r <- print Bar_on bar "bar" cout ;;
  let (bar, cout) := r in
  let cout := cout ++ [EmptyString] in
  r <- print Bar_on foo "foo" cout ;;
  let (foo, cout) := r in
  let cout := cout ++ [EmptyString] in
  Some (cout, 0%Z).

End Program.

(** ** The tree of [main], over an executable platform *)

(** The scalar types [main] uses. *)
Inductive cxx_scalar : Type := t_int | t_float | t_double | t_long.

Definition cxx_scalar_eq_dec (s t : cxx_scalar) : {s = t} + {s <> t}.
Proof. decide equality. Defined.

(** An instance to run the definitions on concrete trees: every scalar is an
    integer with exact addition, printed in decimal; a sample is an integer;
    the generator is a linear congruential sequence and a draw is taken
    within one deviation of the mean.  It stands for no particular
    machine. *)
#[export] Instance Toy : Platform := {|
  scalar := cxx_scalar;
  scalar_eq_dec := cxx_scalar_eq_dec;
  value := Z;
  value_init := fun _ => 0%Z;
  plus_assign := fun _ x y => (x + y)%Z;
  sample := Z;
  static_cast := fun _ x => x;
  insert := fun _ x => NilZero.string_of_int (Z.to_int x);
  Generator := Z;
  normal_distribution := fun mean stddev g =>
    ((mean - stddev + g mod (2 * stddev + 1))%Z,
     ((1103515245 * g + 12345) mod 2147483648)%Z)
|}.

(** [using Bar = InternalNode< mpl::string<'o','n','e'>, ... >;] *)
Definition Bar : ty :=
  InternalNode "one"
    [ LeafNode "A" t_int;
      LeafNode "B" t_float;
      InternalNode "two"
        [ LeafNode "D" t_double;
          InternalNode "three" [ LeafNode "E" t_long ] ];
      LeafNode "F" t_double;
      LeafNode "G" t_int ].




(** Two objects of type [Bar] with given leaf values. *)
Definition bar_example : obj :=
  MkInternal "one"
    [ MkLeaf "A" t_int 2%Z;
      MkLeaf "B" t_float 10%Z;
      MkInternal "two"
        [ MkLeaf "D" t_double 20%Z;
          MkInternal "three" [ MkLeaf "E" t_long 30%Z ] ];
      MkLeaf "F" t_double 40%Z;
      MkLeaf "G" t_int 50%Z ].

Definition foo_example : obj :=
  MkInternal "one"
    [ MkLeaf "A" t_int 3%Z;
      MkLeaf "B" t_float 1%Z;
      MkInternal "two"
        [ MkLeaf "D" t_double 2%Z;
          MkInternal "three" [ MkLeaf "E" t_long 3%Z ] ];
      MkLeaf "F" t_double 4%Z;
      MkLeaf "G" t_int 5%Z ].

(** Two internal nodes with the same child and another name, and a node
    whose name is the empty [mpl::string<>]. *)
Definition Lhs : ty := InternalNode "lhs" [ LeafNode "A" t_int ].
Definition Rhs : ty := InternalNode "rhs" [ LeafNode "A" t_int ].
Definition Anonymous : ty := InternalNode "" [ LeafNode "A" t_int ].

(** An internal node with two leaves. *)
Definition Pair : ty :=
  InternalNode "pair" [ LeafNode "A" t_int; LeafNode "B" t_int ].

(** ** Auxiliary definitions for the statements *)

Section Auxiliary.

Context {PF : Platform}.

(** The number of classes in a type. *)
Fixpoint ty_size (t : ty) : nat :=
  match t with
  | LeafNode _ _ => 1
  | InternalNode _ ChildNodes => S (list_sum (map ty_size ChildNodes))
  end.

(** The subobjects of [p] that have type [T]. *)
Definition occ (T : ty) (p : obj) : list obj :=
  filter (fun s => ty_eqb (type_of s) T) (subobjects p).

(** One call after the other, in the order of the list. *)
Fixpoint apply_each {World : Type} (f : ty -> World -> option World)
  (Bases : list ty) (w : World) : option World :=
  match Bases with
  | [] => Some w
  | Child :: rest => w' <- f Child w ;; apply_each f rest w'
  end.

(** The direct bases of an object visited in declaration order by [F], which
    hands back the base and the rest of the state. *)
Fixpoint visit {X : Type} (F : ty -> obj -> X -> option (obj * X))
  (bases : list obj) (x : X) : option (list obj * X) :=
  match bases with
  | [] => Some ([], x)
  | c :: rest =>
      r <- F (type_of c) c x ;;
      r' <- visit F rest (snd r) ;;
      Some (fst r :: fst r', snd r')
  end.

(** A function of a base and a state, threaded through the direct bases in
    declaration order. *)
Section Thread.
Context {S : Type}.
Variable f : obj -> S -> obj * S.
Fixpoint thread (bases : list obj) (s : S) : list obj * S :=
  match bases with
  | [] => ([], s)
  | c :: rest =>
      let (c', s1) := f c s in
      let (rest', s2) := thread rest s1 in
      (c' :: rest', s2)
  end.
End Thread.

(** The lines that printing [o] under [prefix] is expected to write: one per
    leaf, in declaration order. *)
Fixpoint lines (prefix : string) (o : obj) : list string :=
  match o with
  | MkLeaf Name T val =>
      [String.append (add_space prefix)
         (String.append Name (String.append " == " (insert T val)))]
  | MkInternal Name bases =>
      flat_map (lines (String.append (add_space prefix) Name)) bases
  end.

(** The object and the generator that randomizing [o] is expected to leave:
    one draw per leaf, in declaration order. *)
Fixpoint randomize (o : obj) (g : Generator) : obj * Generator :=
  match o with
  | MkLeaf Name T _ =>
      let (x, g') := normal_distribution 100 50 g in
      (MkLeaf Name T (static_cast T x), g')
  | MkInternal Name bases =>
      let (bases', g') := thread randomize bases g in
      (MkInternal Name bases', g')
  end.

(** Two lists of bases combined position by position. *)
Section Zip.
Variable f : obj -> obj -> obj.
Fixpoint zip_bases (l1 l2 : list obj) {struct l1} : list obj :=
  match l1, l2 with
  | c :: l1', d :: l2' => f c d :: zip_bases l1' l2'
  | _, _ => l1
  end.
End Zip.

(** The object that [a += b] is expected to leave in [a]: leaf by leaf. *)
Fixpoint plus_obj (a b : obj) {struct a} : obj :=
  match a, b with
  | MkLeaf Name T val, MkLeaf _ _ rhs_val =>
      MkLeaf Name T (plus_assign T val rhs_val)
  | MkInternal Name bases, MkInternal _ rhs_bases =>
      MkInternal Name (zip_bases plus_obj bases rhs_bases)
  | _, _ => a
  end.

(** What a leaf writes: the prefix as it stands before the name, the name,
    and the characters of the value. *)
Definition line_of (e : string * string * string) : string :=
  String.append (fst (fst e))
    (String.append (snd (fst e)) (String.append " == " (snd e))).

(** The leaves that printing [o] under [prefix] visits, in the order of the
    visits, each with what it writes. *)
Fixpoint events (prefix : string) (o : obj) : list (string * string * string) :=
  match o with
  | MkLeaf Name T val => [(add_space prefix, Name, insert T val)]
  | MkInternal Name bases =>
      flat_map (events (String.append (add_space prefix) Name)) bases
  end.

(** The leaves a type declares, each with the names of the internal nodes
    above it, outermost first. *)
Fixpoint leaf_paths (t : ty) : list (list string * string * scalar) :=
  match t with
  | LeafNode Name T => [([], Name, T)]
  | InternalNode Name ChildNodes =>
      map (fun e => (Name :: fst (fst e), snd (fst e), snd e))
          (flat_map leaf_paths ChildNodes)
  end.

(** A name joined to what is accumulated so far: separated by one space,
    unless nothing is accumulated. *)
Definition join (accumulated piece : string) : string :=
  if String.eqb accumulated "" then piece
  else String.append accumulated (String.append " " piece).

(** The prefix accumulated along a path of internal nodes. *)
Definition accumulate (prefix : string) (path : list string) : string :=
  fold_left join path prefix.

(** The line of a leaf below an accumulated prefix. *)
Definition leaf_line (accumulated Name text : string) : string :=
  String.append (join accumulated Name) (String.append " == " text).

(** The line of a declared leaf that holds [val], printed under [prefix]. *)
Definition expected_line (prefix : string)
  (leaf : list string * string * scalar) (val : value) : string :=
  leaf_line (accumulate prefix (fst (fst leaf))) (snd (fst leaf))
    (insert (snd leaf) val).

(** A list of strings without the empty strings it starts with. *)
Fixpoint drop_empty (l : list string) : list string :=
  match l with
  | [] => []
  | s :: l' => if String.eqb s "" then drop_empty l' else l
  end.

(** The line read word for word as [<accumulated-prefix> <name> == <value>]:
    the prefix, a space, the name. *)
Definition spaced_line (accumulated Name text : string) : string :=
  String.append accumulated
    (String.append " " (String.append Name (String.append " == " text))).

(** [n] successive draws from [std::normal_distribution<> {100, 50}], each
    from the generator as the draw before left it. *)
Fixpoint draws (n : nat) (g : Generator) : list sample * Generator :=
  match n with
  | O => ([], g)
  | S k =>
      let (x, g1) := normal_distribution 100 50 g in
      let (xs, g2) := draws k g1 in
      (x :: xs, g2)
  end.

(** The samples converted to the scalar types of the declared leaves: the
    first sample to the type of the first leaf, and so on. *)
Definition converted (decls : list (string * scalar)) (xs : list sample)
  : list value :=
  map (fun dx => static_cast (snd (fst dx)) (snd dx)) (combine decls xs).

(** The leaf values of [a] after [a += b], from the values before: at each
    declared leaf, [+=] at the type of the leaf of the value in [a] and the
    value in [b]. *)
Definition sums (decls : list (string * scalar)) (va vb : list value)
  : list value :=
  map (fun d => plus_assign (snd (fst d)) (fst (snd d)) (snd (snd d)))
      (combine decls (combine va vb)).

(** Shape compatibility of two tree types: two internal nodes whose
    child-type sequences are the same in order and type, whatever their own
    names; two leaves of the same type. *)
Definition shape_compatible (s t : ty) : bool :=
  match s, t with
  | InternalNode _ cs, InternalNode _ ds =>
      ty_eqb (InternalNode EmptyString cs) (InternalNode EmptyString ds)
  | _, _ => ty_eqb s t
  end.

End Auxiliary.

(** * Properties *)

Section Properties.

Context {PF : Platform}.

Local Notation "s +++ t" := (String.append s t)
  (at level 60, right associativity).

(** ** Induction over nested trees *)

Lemma ty_ind' (P : ty -> Prop) :
  (forall Name T, P (LeafNode Name T)) ->
  (forall Name ChildNodes, Forall P ChildNodes -> P (InternalNode Name ChildNodes)) ->
  forall t, P t.
Proof.
  intros HL HI. fix IH 1. intros [Name T | Name cs].
  - apply HL.
  - apply HI. induction cs as [| c cs IHcs]; constructor; [apply IH | exact IHcs].
Qed.

Lemma obj_ind' (P : obj -> Prop) :
  (forall Name T val, P (MkLeaf Name T val)) ->
  (forall Name bases, Forall P bases -> P (MkInternal Name bases)) ->
  forall o, P o.
Proof.
  intros HL HI. fix IH 1. intros [Name T val | Name bs].
  - apply HL.
  - apply HI. induction bs as [| b bs IHbs]; constructor; [apply IH | exact IHbs].
Qed.

(** ** Equality of types *)

Lemma ty_eqb_eq (s t : ty) : ty_eqb s t = true <-> s = t.
Proof.
  revert t. induction s as [n T | n cs IH] using ty_ind'; intros [m U | m ds]; simpl;
    try (split; [discriminate | intros E; discriminate E]).
  - rewrite andb_true_iff, String.eqb_eq.
    destruct (scalar_eq_dec T U) as [-> | NE]; split.
    + intros [-> _]. reflexivity.
    + intros E. injection E as ->. auto.
    + intros [_ E]. discriminate E.
    + intros E. injection E as -> ->. contradiction.
  - rewrite andb_true_iff, String.eqb_eq.
    assert (L : (fix all2 (l1 l2 : list ty) {struct l1} : bool :=
                   match l1, l2 with
                   | [], [] => true
                   | c :: l1', d :: l2' => ty_eqb c d && all2 l1' l2'
                   | _, _ => false
                   end) cs ds = true <-> cs = ds).
    { revert ds. induction IH as [| c cs Hc _ IHcs]; intros [| d ds];
        try (split; [discriminate | intros E; discriminate E]).
      - tauto.
      - rewrite andb_true_iff, Hc, IHcs. split.
        + intros [-> ->]. reflexivity.
        + intros E. injection E as -> ->. auto. }
    rewrite L. split.
    + intros [-> ->]. reflexivity.
    + intros E. injection E as -> ->. auto.
Qed.

Lemma ty_eqb_refl (t : ty) : ty_eqb t t = true.
Proof. apply ty_eqb_eq. reflexivity. Qed.

Lemma ty_eqb_neq (s t : ty) : s <> t -> ty_eqb s t = false.
Proof.
  intros NE. destruct (ty_eqb s t) eqn:E; [| reflexivity].
  apply ty_eqb_eq in E. contradiction.
Qed.

(** ** Subobjects and their types *)

Lemma filter_flat_map_nil {A B : Type} (p : B -> bool) (f : A -> list B) (l : list A) :
  filter p (flat_map f l) = [] <-> Forall (fun x => filter p (f x) = []) l.
Proof.
  induction l as [| a l IH]; simpl.
  - split; [constructor | reflexivity].
  - rewrite filter_app. split.
    + intros E. apply app_eq_nil in E as [E1 E2]. constructor; [exact E1 | apply IH; exact E2].
    + intros F. inversion F as [| ? ? E1 F2]; subst. rewrite E1. apply IH. exact F2.
Qed.

Lemma type_of_subobjects (o : obj) :
  map type_of (subobjects o) = subtypes (type_of o).
Proof.
  induction o as [n T v | n bs IH] using obj_ind'; simpl; [reflexivity |].
  f_equal. induction IH as [| b bs Hb _ IHbs]; simpl; [reflexivity |].
  rewrite map_app, Hb, IHbs. reflexivity.
Qed.

Lemma length_occ (T : ty) (o : obj) :
  List.length (occ T o) = occurrences T (subtypes (type_of o)).
Proof.
  unfold occ, occurrences. rewrite <- type_of_subobjects.
  generalize (subobjects o) as l. intros l.
  induction l as [| x l IH]; simpl; [reflexivity |].
  destruct (ty_eqb (type_of x) T); simpl; rewrite IH; reflexivity.
Qed.

Lemma subtypes_size (t s : ty) : In s (subtypes t) -> ty_size s <= ty_size t.
Proof.
  revert s. induction t as [n T | n cs IH] using ty_ind'; intros s; simpl.
  - intros [<- | []]. simpl. lia.
  - intros [<- | H]; [simpl; lia |].
    apply in_flat_map in H as (c & Hc & Hs).
    rewrite Forall_forall in IH. specialize (IH c Hc s Hs).
    clear Hs. induction cs as [| d cs IHcs]; [destruct Hc |].
    simpl. destruct Hc as [-> | Hc]; [lia |].
    assert (ty_size s <= list_sum (map ty_size cs)).
    { clear IHcs. induction cs as [| e cs IHe]; [destruct Hc |].
      simpl. destruct Hc as [-> | Hc]; [lia |]. specialize (IHe Hc). lia. }
    lia.
Qed.

Lemma child_size (Name : string) (cs : list ty) (s : ty) :
  In s (flat_map subtypes cs) -> ty_size s < ty_size (InternalNode Name cs).
Proof.
  intros H. apply in_flat_map in H as (c & Hc & Hs).
  apply subtypes_size in Hs. simpl.
  assert (ty_size c <= list_sum (map ty_size cs)).
  { clear Hs. induction cs as [| e cs IHe]; [destruct Hc |].
    simpl. destruct Hc as [-> | Hc]; [lia |]. specialize (IHe Hc). lia. }
  lia.
Qed.

Lemma filter_none {A : Type} (p : A -> bool) (l : list A) :
  (forall x, In x l -> p x = false) -> filter p l = [].
Proof.
  induction l as [| a l IH]; intros H; simpl; [reflexivity |].
  rewrite (H a (or_introl eq_refl)). apply IH. intros x Hx. apply H. right. exact Hx.
Qed.

Lemma subobject_type (bs : list obj) (x : obj) :
  In x (flat_map subobjects bs) ->
  In (type_of x) (flat_map subtypes (map type_of bs)).
Proof.
  intros Hx. apply in_flat_map in Hx as (b & Hb & Hx).
  apply in_flat_map. exists (type_of b). split; [apply in_map; exact Hb |].
  rewrite <- type_of_subobjects. apply in_map. exact Hx.
Qed.

(** A class is not a base class of itself: the only subobject of [o] that
    has the type of [o] is [o]. *)
Lemma occ_self (o : obj) : occ (type_of o) o = [o].
Proof.
  unfold occ. destruct o as [n T v | n bs]; simpl subobjects; cbn [filter];
    rewrite ty_eqb_refl; [reflexivity |].
  f_equal. apply filter_none. intros x Hx. apply ty_eqb_neq. intros E.
  apply subobject_type in Hx. apply (child_size n) in Hx.
  rewrite E in Hx. simpl in Hx. lia.
Qed.

Lemma get_self (o : obj) : get (type_of o) o = Some o.
Proof. unfold get. fold (occ (type_of o) o). rewrite occ_self. reflexivity. Qed.

Lemma put_self (o c : obj) : put (type_of o) c o = c.
Proof. destruct o; cbn [put]; rewrite ty_eqb_refl; reflexivity. Qed.

Lemma get_same (T : ty) (o : obj) : type_of o = T -> get T o = Some o.
Proof. intros <-. apply get_self. Qed.

Lemma put_same (T : ty) (o c : obj) : type_of o = T -> put T c o = c.
Proof. intros <-. apply put_self. Qed.

(** Where there is no subobject of type [T], [put] changes nothing. *)
Lemma put_absent (T : ty) (c o : obj) : occ T o = [] -> put T c o = o.
Proof.
  induction o as [n U v | n bs IH] using obj_ind'; unfold occ; simpl subobjects;
    cbn [filter]; intros H.
  - cbn [put]. destruct (ty_eqb (type_of (MkLeaf n U v)) T); [discriminate H | reflexivity].
  - cbn [put]. destruct (ty_eqb (type_of (MkInternal n bs)) T); [discriminate H |].
    f_equal. apply filter_flat_map_nil in H.
    induction IH as [| b bs Hb _ IHbs]; [reflexivity |].
    inversion H as [| ? ? H1 H2]; subst. simpl.
    rewrite (Hb H1), (IHbs H2). reflexivity.
Qed.

(** A direct base is another class than the derived class. *)
Lemma child_type_neq (Name : string) (l1 l2 : list obj) (c : obj) :
  ty_eqb (type_of (MkInternal Name (l1 ++ c :: l2))) (type_of c) = false.
Proof.
  apply ty_eqb_neq. intros E.
  assert (In (type_of c) (flat_map subtypes (map type_of (l1 ++ c :: l2)))) as Hin.
  { apply in_flat_map. exists (type_of c). split.
    - apply in_map. apply in_elt.
    - destruct c; simpl; left; reflexivity. }
  apply (child_size Name) in Hin. rewrite <- E in Hin. simpl in Hin. lia.
Qed.

(** The direct base at a position whose type is an unambiguous base: [get]
    finds it and [put] replaces it, and nothing else. *)
Lemma occ_child (Name : string) (l1 l2 : list obj) (c : obj) :
  unambiguous_base (type_of c) (type_of (MkInternal Name (l1 ++ c :: l2))) = true ->
  occ (type_of c) (MkInternal Name (l1 ++ c :: l2)) = [c] /\
  Forall (fun x => occ (type_of c) x = []) (l1 ++ l2).
Proof.
  intros U. unfold unambiguous_base in U. apply Nat.eqb_eq in U.
  rewrite <- length_occ in U. revert U.
  unfold occ at 1 2. simpl subobjects. cbn [filter].
  pose proof (child_type_neq Name l1 l2 c) as NE.
  rewrite NE. rewrite flat_map_app. simpl flat_map. rewrite !filter_app.
  fold (occ (type_of c) c). rewrite occ_self.
  rewrite !length_app. simpl List.length. intros U.
  assert (filter (fun s => ty_eqb (type_of s) (type_of c)) (flat_map subobjects l1) = []) as E1
    by (apply length_zero_iff_nil; lia).
  assert (filter (fun s => ty_eqb (type_of s) (type_of c)) (flat_map subobjects l2) = []) as E2
    by (apply length_zero_iff_nil; lia).
  rewrite E1, E2. split; [reflexivity |].
  apply Forall_app. split; apply filter_flat_map_nil; assumption.
Qed.

Lemma get_child (Name : string) (l1 l2 : list obj) (c : obj) :
  unambiguous_base (type_of c) (type_of (MkInternal Name (l1 ++ c :: l2))) = true ->
  get (type_of c) (MkInternal Name (l1 ++ c :: l2)) = Some c.
Proof.
  intros U. apply occ_child in U as [E _]. unfold get.
  fold (occ (type_of c) (MkInternal Name (l1 ++ c :: l2))). rewrite E. reflexivity.
Qed.

Lemma put_child (Name : string) (l1 l2 : list obj) (c c' : obj) :
  unambiguous_base (type_of c) (type_of (MkInternal Name (l1 ++ c :: l2))) = true ->
  put (type_of c) c' (MkInternal Name (l1 ++ c :: l2)) = MkInternal Name (l1 ++ c' :: l2).
Proof.
  intros U. pose proof (occ_child _ _ _ _ U) as [E F].
  cbn [put].
  pose proof (child_type_neq Name l1 l2 c) as NE.
  rewrite NE. f_equal. apply Forall_app in F as [F1 F2].
  rewrite map_app. simpl map. rewrite put_self. f_equal; [| f_equal].
  - clear -F1. induction F1 as [| x l Hx _ IH]; [reflexivity |].
    simpl. rewrite (put_absent _ _ _ Hx), IH. reflexivity.
  - clear -F2. induction F2 as [| x l Hx _ IH]; [reflexivity |].
    simpl. rewrite (put_absent _ _ _ Hx), IH. reflexivity.
Qed.

(** ** The scan *)

Lemma inher_tree_scan_recur_each {World : Type}
  (apply : ty -> ty -> World -> option World) (Parent : ty) (Bases : list ty) (w : World) :
  inher_tree_scan_recur apply Parent (empty Bases) Bases w
  = apply_each (apply Parent) Bases w.
Proof.
  revert w. induction Bases as [| current_base remaining_bases IH]; intros w; simpl.
  - reflexivity.
  - destruct (apply Parent current_base w) as [w' |]; simpl; [apply IH | reflexivity].
Qed.

(** A functor that works on [get<Child>(a)] only: the scan of an object
    visits its direct bases one by one. *)
Section ChildWise.

Variables World X : Type.
Variable mk : obj -> X -> World.
Variable F : ty -> ty -> obj -> X -> option (obj * X).
Variable apply : ty -> ty -> World -> option World.
Hypothesis apply_mk : forall Parent Child a x,
  apply Parent Child (mk a x)
  = c <- get Child a ;;
    r <- F Parent Child c x ;;
    Some (mk (put Child (fst r) a) (snd r)).

Lemma scan_childwise_from (Name : string) (T : ty) (todo : list obj) :
  forall (done : list obj) (x : X),
  type_of (MkInternal Name (done ++ todo)) = T ->
  (forall c, In c todo -> unambiguous_base (type_of c) T = true) ->
  (forall c y c' y', In c todo ->
     F T (type_of c) c y = Some (c', y') -> type_of c' = type_of c) ->
  apply_each (apply T) (map type_of todo) (mk (MkInternal Name (done ++ todo)) x)
  = r <- visit (F T) todo x ;;
    Some (mk (MkInternal Name (done ++ fst r)) (snd r)).
Proof.
  induction todo as [| c todo IH]; intros done x HT HU HF.
  - reflexivity.
  - cbn [map apply_each visit]. rewrite apply_mk.
    rewrite get_child by (rewrite HT; apply HU; left; reflexivity).
    cbn [bind]. destruct (F T (type_of c) c x) as [[c' x'] |] eqn:EF; [| reflexivity].
    cbn [bind fst snd].
    rewrite put_child by (rewrite HT; apply HU; left; reflexivity).
    assert (type_of c' = type_of c) as Ec by (eapply HF; [left; reflexivity | exact EF]).
    replace (done ++ c' :: todo) with ((done ++ [c']) ++ todo)
      by (rewrite <- app_assoc; reflexivity).
    rewrite IH.
    + destruct (visit (F T) todo x') as [[bs' x''] |]; [| reflexivity].
      cbn [bind fst snd]. rewrite <- app_assoc. reflexivity.
    + rewrite <- HT. simpl. rewrite !map_app. simpl. rewrite Ec, <- app_assoc. reflexivity.
    + intros d Hd. apply HU. right. exact Hd.
    + intros d y d' y' Hd. apply HF. right. exact Hd.
Qed.

Lemma scan_childwise (Name : string) (bases : list obj) (x : X) :
  let T := type_of (MkInternal Name bases) in
  (forall c, In c bases -> unambiguous_base (type_of c) T = true) ->
  (forall c y c' y', In c bases ->
     F T (type_of c) c y = Some (c', y') -> type_of c' = type_of c) ->
  inher_tree_scan apply T (mk (MkInternal Name bases) x)
  = r <- visit (F T) bases x ;;
    Some (mk (MkInternal Name (fst r)) (snd r)).
Proof.
  intros T HU HF. unfold inher_tree_scan. subst T. cbn [type_of base_type].
  fold (type_of (MkInternal Name bases)).
  rewrite inher_tree_scan_recur_each.
  apply (scan_childwise_from Name _ bases [] x); [reflexivity | exact HU | exact HF].
Qed.

End ChildWise.

(** ** Well-formed types *)

Lemma well_formed_children (Name : string) (bases : list obj) :
  well_formed (type_of (MkInternal Name bases)) = true ->
  forall c, In c bases ->
    unambiguous_base (type_of c) (type_of (MkInternal Name bases)) = true /\
    well_formed (type_of c) = true.
Proof.
  cbn [type_of well_formed]. intros W c Hc.
  rewrite forallb_forall in W. specialize (W (type_of c) (in_map type_of _ _ Hc)).
  apply andb_true_iff in W. exact W.
Qed.

(** ** print *)

Lemma print_lines (o : obj) :
  well_formed (type_of o) = true ->
  forall (prefix : string) (cout : ostream),
    print (type_of o) o prefix cout = Some (o, cout ++ lines prefix o).
Proof.
  induction o as [n T v | n bs IH] using obj_ind'; intros W prefix cout.
  - reflexivity.
  - pose proof (scan_childwise (obj * string * ostream) (string * ostream)
               (fun a x => (a, fst x, snd x))
               (fun _ Child c x =>
                  r <- print Child c (fst x) (snd x) ;; Some (fst r, (fst x, snd r)))
               (print_f_apply print)
             ltac:(intros P C a [pf co]; cbn [fst snd print_f_apply];
                   destruct (get C a) as [c |]; cbn [bind]; [| reflexivity];
                   destruct (print C c pf co) as [[]|]; reflexivity)
             n bs (add_space prefix +++ n, cout)) as SC.
    cbv zeta in SC. cbn [fst snd] in SC.
    change (print (type_of (MkInternal n bs)) (MkInternal n bs) prefix cout)
      with (w <- inher_tree_scan (print_f_apply print) (type_of (MkInternal n bs))
                   (MkInternal n bs, add_space prefix +++ n, cout) ;;
            Some (fst (fst w), snd w)).
    set (prefix' := add_space prefix +++ n) in *.
    rewrite SC; clear SC.
    + assert (forall out, visit (fun Child c x =>
                 r <- print Child c (fst x) (snd x) ;; Some (fst r, (fst x, snd r)))
               bs (prefix', out)
             = Some (bs, (prefix', out ++ flat_map (lines prefix') bs))) as V.
      { assert (forall c, In c bs -> well_formed (type_of c) = true) as WC
          by (intros c Hc; apply (well_formed_children _ _ W c Hc)).
        clear W.
        induction IH as [| c bs Hc _ IHbs]; intros out.
        - simpl. rewrite app_nil_r. reflexivity.
        - cbn [visit fst snd flat_map].
          rewrite Hc by (apply WC; left; reflexivity).
          cbn [bind fst snd]. rewrite IHbs by (intros d Hd; apply WC; right; exact Hd).
          cbn [bind fst snd]. rewrite app_assoc. reflexivity. }
      rewrite V. reflexivity.
    + intros c Hc. apply (well_formed_children _ _ W c Hc).
    + intros c [pf co] c' y' Hc. cbn [fst snd].
      rewrite Forall_forall in IH.
      rewrite (IH c Hc) by (apply (well_formed_children _ _ W c Hc)).
      cbn [bind fst snd]. intros E. injection E as <- _. reflexivity.
Qed.

(** [well_formed] is the condition under which [print] instantiates: where
    [print] returns, the type of the object is well formed. *)
Lemma get_unambiguous (T : ty) (p c : obj) :
  get T p = Some c -> unambiguous_base T (type_of p) = true.
Proof.
  unfold get, unambiguous_base. intros G. rewrite <- length_occ. unfold occ.
  destruct (filter (fun s => ty_eqb (type_of s) T) (subobjects p)) as [| x [| y l]];
    try discriminate G. reflexivity.
Qed.

Lemma print_well_formed (o : obj) :
  forall (prefix : string) (cout : ostream) (r : obj * ostream),
    print (type_of o) o prefix cout = Some r -> well_formed (type_of o) = true.
Proof.
  induction o as [n T v | n bs IH] using obj_ind'; intros prefix cout r R.
  - reflexivity.
  - change (print (type_of (MkInternal n bs)) (MkInternal n bs) prefix cout)
      with (w <- inher_tree_scan (print_f_apply print) (type_of (MkInternal n bs))
                   (MkInternal n bs, add_space prefix +++ n, cout) ;;
            Some (fst (fst w), snd w)) in R.
    destruct (inher_tree_scan (print_f_apply print) (type_of (MkInternal n bs))
                (MkInternal n bs, add_space prefix +++ n, cout)) as [w |] eqn:S;
      [clear R | discriminate R].
    unfold inher_tree_scan in S. cbn [type_of base_type] in S.
    rewrite inher_tree_scan_recur_each in S.
    fold (type_of (MkInternal n bs)) in S.
    set (p' := add_space prefix +++ n) in S. clearbody p'.
    cbn [type_of well_formed]. fold (type_of (MkInternal n bs)).
    apply forallb_forall. intros t Ht. apply in_map_iff in Ht as (c & <- & Hc).
    apply andb_true_iff.
    assert (forall todo done out,
              bs = done ++ todo ->
              apply_each (print_f_apply print (type_of (MkInternal n bs)))
                (map type_of todo) (MkInternal n bs, p', out) = Some w ->
              forall c, In c todo ->
                unambiguous_base (type_of c) (type_of (MkInternal n bs)) = true /\
                well_formed (type_of c) = true) as K.
    { clear c Hc S cout. rewrite Forall_forall in IH.
      induction todo as [| d todo IHtodo]; intros done out E A c Hc; [destruct Hc |].
      cbn [map apply_each print_f_apply] in A.
      destruct (get (type_of d) (MkInternal n bs)) as [x |] eqn:G; [| discriminate A].
      pose proof (get_unambiguous _ _ _ G) as U.
      assert (x = d) as ->.
      { rewrite E in G, U. rewrite get_child in G by exact U. injection G as G. auto. }
      cbn [bind] in A.
      destruct (print (type_of d) d p' out) as [r' |] eqn:P; [| discriminate A].
      assert (In d bs) as Hd by (rewrite E; apply in_elt).
      pose proof (IH d Hd _ _ _ P) as Wd.
      rewrite (print_lines d Wd) in P. injection P as <-.
      cbn [bind fst snd] in A.
      assert (put (type_of d) d (MkInternal n bs) = MkInternal n bs) as Q.
      { rewrite E at 1 2. rewrite E in U. rewrite put_child by exact U. rewrite <- E.
        reflexivity. }
      rewrite Q in A.
      destruct Hc as [<- | Hc]; [split; assumption |].
      apply (IHtodo (done ++ [d]) (out ++ lines p' d));
        [rewrite <- app_assoc; exact E | exact A | exact Hc]. }
    apply (K bs [] cout eq_refl S c Hc).
Qed.

(** ** rand_gen *)

Lemma thread_types {S : Type} (f : obj -> S -> obj * S) (bases : list obj) :
  Forall (fun c => forall s, type_of (fst (f c s)) = type_of c) bases ->
  forall s, map type_of (fst (thread f bases s)) = map type_of bases.
Proof.
  induction 1 as [| c bs Hc _ IH]; intros s; simpl; [reflexivity |].
  specialize (Hc s). destruct (f c s) as [c' s1]. specialize (IH s1).
  destruct (thread f bs s1) as [bs' s2]. simpl in *. rewrite Hc, IH. reflexivity.
Qed.

Lemma randomize_type (o : obj) (g : Generator) :
  type_of (fst (randomize o g)) = type_of o.
Proof.
  revert g. induction o as [n T v | n bs IH] using obj_ind'; intros g; simpl.
  - destruct (normal_distribution 100 50 g). reflexivity.
  - pose proof (thread_types randomize bs IH g) as E.
    destruct (thread randomize bs g) as [bs' g']. simpl in *. rewrite E. reflexivity.
Qed.

Lemma rand_gen_randomize (o : obj) :
  well_formed (type_of o) = true ->
  forall g : Generator, rand_gen (type_of o) o g = Some (randomize o g).
Proof.
  induction o as [n T v | n bs IH] using obj_ind'; intros W g.
  - simpl. destruct (normal_distribution 100 50 g). reflexivity.
  - pose proof (scan_childwise (obj * Generator) Generator
               (fun a x => (a, x))
               (fun _ Child c x => rand_gen Child c x)
               (rand_gen_f_apply rand_gen)
             ltac:(intros; reflexivity)
             n bs g) as SC.
    cbv zeta in SC.
    change (rand_gen (type_of (MkInternal n bs)) (MkInternal n bs) g)
      with (inher_tree_scan (rand_gen_f_apply rand_gen) (type_of (MkInternal n bs))
              (MkInternal n bs, g)).
    assert (forall c, In c bs -> well_formed (type_of c) = true) as WC
      by (intros c Hc; apply (well_formed_children _ _ W c Hc)).
    rewrite Forall_forall in IH.
    rewrite SC; clear SC.
    + assert (forall h, visit (fun Child c x => rand_gen Child c x) bs h
                        = Some (thread randomize bs h)) as V.
      { clear W. induction bs as [| c bs IHbs]; intros h; [reflexivity |].
        cbn [visit thread].
        rewrite (IH c) by (try apply WC; left; reflexivity).
        cbn [bind]. destruct (randomize c h) as [c' h1]. cbn [fst snd].
        rewrite IHbs.
        - cbn [bind]. destruct (thread randomize bs h1). reflexivity.
        - intros d Hd. apply IH. right. exact Hd.
        - intros d Hd. apply WC. right. exact Hd. }
      rewrite V. cbn [bind randomize].
      destruct (thread randomize bs g). reflexivity.
    + intros c Hc. apply (well_formed_children _ _ W c Hc).
    + intros c y c' y' Hc. rewrite (IH c Hc (WC c Hc)).
      intros E. injection E as E. rewrite <- (randomize_type c y), E. reflexivity.
Qed.

(** ** operator+= *)

Lemma get_type (T : ty) (p c : obj) : get T p = Some c -> type_of c = T.
Proof.
  unfold get. intros G.
  assert (In c (filter (fun s => ty_eqb (type_of s) T) (subobjects p))) as H.
  { destruct (filter (fun s => ty_eqb (type_of s) T) (subobjects p)) as [| x [| y l]];
      try discriminate G. injection G as ->. left. reflexivity. }
  apply filter_In in H as [_ H]. apply ty_eqb_eq. exact H.
Qed.

Lemma plus_obj_type (a b : obj) : type_of b = type_of a -> type_of (plus_obj a b) = type_of a.
Proof.
  revert b. induction a as [n T v | n bs IH] using obj_ind'; intros [m U w | m cs] E;
    try discriminate E; [reflexivity |].
  cbn [plus_obj type_of]. f_equal. injection E as _ E. clear m.
  revert cs E. induction IH as [| c bs Hc _ IHbs]; intros [| d cs] E;
    try discriminate E; [reflexivity |].
  injection E as Ed E. cbn [zip_bases map]. rewrite (Hc d Ed), (IHbs cs E). reflexivity.
Qed.

Lemma deduce_same (Name : string) (ChildNodes : list ty) (arg : obj) :
  type_of arg = InternalNode Name ChildNodes ->
  deduce_RhsName ChildNodes arg = Some Name.
Proof.
  intros E. unfold deduce_RhsName.
  destruct arg as [n T v | n bs]; [discriminate E |].
  simpl subobjects. cbn [filter]. rewrite E. cbn [is_InternalNode_of].
  rewrite ty_eqb_refl.
  rewrite filter_none; [rewrite E; reflexivity |].
  intros x Hx. destruct (type_of x) as [m U | m cs] eqn:Ex; [reflexivity |].
  cbn [is_InternalNode_of]. apply ty_eqb_neq. intros K.
  apply subobject_type in Hx. apply (child_size n) in Hx.
  rewrite Ex, K in Hx. injection E as _ E. rewrite E in Hx. simpl in Hx. lia.
Qed.

Lemma add_eq_apply_childwise
  (op : ty -> obj -> obj -> option (obj * obj)) (Parent Child : ty) (a arg : obj) :
  add_eq_apply op Parent Child (a, arg)
  = c <- get Child a ;;
    r <- (b <- get Parent arg ;;
          cb <- get Child b ;;
          r <- op Child c cb ;;
          Some (fst r, put Parent (put Child (snd r) b) arg)) ;;
    Some (put Child (fst r) a, snd r).
Proof.
  unfold add_eq_apply.
  destruct (get Parent arg) as [b |], (get Child a) as [ca |]; cbn [bind]; try reflexivity.
  destruct (get Child b) as [cb |]; cbn [bind]; [| reflexivity].
  destruct (op Child ca cb) as [r |]; reflexivity.
Qed.

Lemma operator_add_eq_plus (a : obj) :
  well_formed (type_of a) = true ->
  forall b : obj, type_of b = type_of a ->
    operator_add_eq (type_of a) a b = Some (plus_obj a b, b).
Proof.
  induction a as [n T v | n bs IH] using obj_ind'; intros W b Eb.
  - destruct b as [m U w | m cs]; [| discriminate Eb].
    cbn [type_of operator_add_eq]. unfold LeafNode_add_eq.
    cbn [type_of] in Eb. rewrite <- Eb.
    change (LeafNode m U) with (type_of (MkLeaf m U w)). rewrite get_self.
    injection Eb as _ ->. reflexivity.
  - destruct b as [m U w | m cs]; [discriminate Eb |].
    assert (m = n) as -> by (injection Eb as -> _; reflexivity).
    set (F := fun (Parent Child : ty) (c arg : obj) =>
                b <- get Parent arg ;;
                cb <- get Child b ;;
                r <- operator_add_eq Child c cb ;;
                Some (fst r, put Parent (put Child (snd r) b) arg)).
    pose proof (scan_childwise (obj * obj) obj (fun a x => (a, x)) F
                  (add_eq_apply operator_add_eq)
                  (add_eq_apply_childwise operator_add_eq) n bs (MkInternal n cs)) as SC.
    cbv zeta in SC.
    change (operator_add_eq (type_of (MkInternal n bs)) (MkInternal n bs) (MkInternal n cs))
      with (RhsName <- deduce_RhsName (map type_of bs) (MkInternal n cs) ;;
            rhs <- get (InternalNode RhsName (map type_of bs)) (MkInternal n cs) ;;
            w <- inher_tree_scan (add_eq_apply operator_add_eq)
                   (type_of (MkInternal n bs)) (MkInternal n bs, rhs) ;;
            Some (fst w, put (InternalNode RhsName (map type_of bs)) (snd w) (MkInternal n cs))).
    rewrite (deduce_same n (map type_of bs) (MkInternal n cs) Eb). cbn [bind].
    change (InternalNode n (map type_of bs)) with (type_of (MkInternal n bs)).
    rewrite (get_same _ _ Eb). cbn [bind].
    assert (forall c, In c bs -> well_formed (type_of c) = true) as WC
      by (intros c Hc; apply (well_formed_children _ _ W c Hc)).
    assert (forall d, In d cs ->
              unambiguous_base (type_of d) (type_of (MkInternal n cs)) = true) as UC.
    { intros d Hd. rewrite <- Eb in W. apply (well_formed_children _ _ W d Hd). }
    rewrite Forall_forall in IH.
    assert (forall todo_a todo_b done_b,
              map type_of todo_a = map type_of todo_b ->
              cs = done_b ++ todo_b ->
              (forall c, In c todo_a -> In c bs) ->
              visit (F (type_of (MkInternal n bs))) todo_a (MkInternal n cs)
              = Some (zip_bases plus_obj todo_a todo_b, MkInternal n cs)) as V.
    { induction todo_a as [| ca ta IHta]; intros [| cb tb] done_b Et Ecs Hin;
        try discriminate Et; [reflexivity |].
      injection Et as Ec Et. cbn [visit zip_bases]. unfold F at 1.
      rewrite (get_same _ _ Eb). cbn [bind].
      assert (unambiguous_base (type_of cb) (type_of (MkInternal n (done_b ++ cb :: tb))) = true)
        as Ucb by (rewrite <- Ecs; apply UC; rewrite Ecs; apply in_elt).
      assert (get (type_of ca) (MkInternal n cs) = Some cb) as G
        by (rewrite Ec, Ecs; apply get_child; exact Ucb).
      rewrite G. cbn [bind].
      rewrite (IH ca (Hin ca (or_introl eq_refl)) (WC ca (Hin ca (or_introl eq_refl))) cb)
        by (symmetry; exact Ec).
      cbn [bind fst snd].
      assert (put (type_of ca) cb (MkInternal n cs) = MkInternal n cs) as P
        by (rewrite Ec, Ecs; apply put_child; exact Ucb).
      rewrite P, (put_same _ _ _ Eb).
      rewrite (IHta tb (done_b ++ [cb])).
      - reflexivity.
      - exact Et.
      - rewrite <- app_assoc. exact Ecs.
      - intros c Hc. apply Hin. right. exact Hc. }
    rewrite SC; clear SC.
    + rewrite (V bs cs []).
      * cbn [bind fst snd]. rewrite (put_same _ _ _ Eb). reflexivity.
      * injection Eb as Eb. symmetry. exact Eb.
      * reflexivity.
      * auto.
    + intros c Hc. apply (well_formed_children _ _ W c Hc).
    + intros c y c' y' Hc. unfold F.
      destruct (get (type_of (MkInternal n bs)) y) as [b0 |]; cbn [bind]; [| discriminate].
      destruct (get (type_of c) b0) as [cb |] eqn:G; cbn [bind]; [| discriminate].
      apply get_type in G.
      rewrite (IH c Hc (WC c Hc) cb G). cbn [bind fst snd].
      intros K. injection K as <- _. apply plus_obj_type. exact G.
Qed.

(** ** Lists and strings *)

Lemma append_assoc (s t u : string) : (s +++ t) +++ u = s +++ (t +++ u).
Proof. induction s as [| a s IH]; simpl; [reflexivity | rewrite IH; reflexivity]. Qed.

Lemma length_append (s t : string) :
  String.length (s +++ t) = String.length s + String.length t.
Proof. induction s as [| a s IH]; simpl; [reflexivity | rewrite IH; reflexivity]. Qed.

Lemma combine_app {A B : Type} (l1 l2 : list A) (m1 m2 : list B) :
  List.length l1 = List.length m1 ->
  combine (l1 ++ l2) (m1 ++ m2) = combine l1 m1 ++ combine l2 m2.
Proof.
  revert m1. induction l1 as [| a l1 IH]; intros [| b m1] E; try discriminate E.
  - reflexivity.
  - simpl. rewrite IH by (injection E as E; exact E). reflexivity.
Qed.

Lemma combine_map_l {A A' B : Type} (f : A -> A') (l : list A) (m : list B) :
  combine (map f l) m = map (fun ab => (f (fst ab), snd ab)) (combine l m).
Proof.
  revert m. induction l as [| a l IH]; intros [| b m]; simpl; try reflexivity.
  rewrite IH. reflexivity.
Qed.

Lemma join_add_space (accumulated piece : string) :
  join accumulated piece = add_space accumulated +++ piece.
Proof.
  unfold join, add_space. destruct (String.eqb accumulated "") eqn:E.
  - apply String.eqb_eq in E. subst. reflexivity.
  - rewrite append_assoc. reflexivity.
Qed.

(** The accumulated prefix is the given prefix and the names of the path
    joined by single spaces, the empty strings in front left out. *)
Lemma accumulate_concat (prefix : string) (path : list string) :
  accumulate prefix path = String.concat " " (drop_empty (prefix :: path)).
Proof.
  revert prefix. induction path as [| n path IH]; intros prefix.
  - cbn [accumulate fold_left drop_empty].
    destruct (String.eqb prefix "") eqn:E; [| reflexivity].
    apply String.eqb_eq in E. exact E.
  - change (accumulate prefix (n :: path)) with (accumulate (join prefix n) path).
    rewrite IH. unfold join. cbn [drop_empty].
    destruct (String.eqb prefix "") eqn:E; [reflexivity |].
    assert (String.eqb (prefix +++ " " +++ n) "" = false) as NE.
    { destruct prefix; [discriminate E | reflexivity]. }
    rewrite NE. cbn [String.concat].
    destruct path as [| m path]; [reflexivity |].
    rewrite !append_assoc. reflexivity.
Qed.

(** ** The leaves of an object and of its type *)

Lemma length_leaf_paths (t : ty) :
  List.length (leaf_paths t) = List.length (leaf_decls t).
Proof.
  induction t as [n T | n cs IH] using ty_ind'; simpl; [reflexivity |].
  rewrite length_map. induction IH as [| c cs Hc _ IHcs]; simpl; [reflexivity |].
  rewrite !length_app, Hc, IHcs. reflexivity.
Qed.

Lemma length_leaf_values (o : obj) :
  List.length (leaf_values o) = List.length (leaf_decls (type_of o)).
Proof.
  induction o as [n T v | n bs IH] using obj_ind'; simpl; [reflexivity |].
  induction IH as [| c bs Hc _ IHbs]; simpl; [reflexivity |].
  rewrite !length_app, Hc, IHbs. reflexivity.
Qed.

Lemma leaf_paths_decls (t : ty) :
  map (fun e => (snd (fst e), snd e)) (leaf_paths t) = leaf_decls t.
Proof.
  induction t as [n T | n cs IH] using ty_ind'; simpl; [reflexivity |].
  rewrite map_map. simpl.
  induction IH as [| c cs Hc _ IHcs]; simpl; [reflexivity |].
  rewrite map_app, Hc, IHcs. reflexivity.
Qed.

(** ** What print writes *)

Lemma lines_events (prefix : string) (o : obj) :
  lines prefix o = map line_of (events prefix o).
Proof.
  revert prefix. induction o as [n T v | n bs IH] using obj_ind'; intros prefix; simpl.
  - reflexivity.
  - generalize (add_space prefix +++ n) as p. intros p.
    induction IH as [| c bs Hc _ IHbs]; simpl; [reflexivity |].
    rewrite map_app, Hc, IHbs. reflexivity.
Qed.

Lemma events_names (prefix : string) (o : obj) :
  map (fun e => snd (fst e)) (events prefix o) = leaf_names (type_of o).
Proof.
  unfold leaf_names.
  revert prefix. induction o as [n T v | n bs IH] using obj_ind'; intros prefix; simpl.
  - reflexivity.
  - generalize (add_space prefix +++ n) as p. intros p.
    induction IH as [| c bs Hc _ IHbs]; simpl; [reflexivity |].
    rewrite !map_app, Hc, IHbs. reflexivity.
Qed.

Lemma events_paths (prefix : string) (o : obj) :
  events prefix o
  = map (fun pv => (add_space (accumulate prefix (fst (fst (fst pv)))),
                    snd (fst (fst pv)),
                    insert (snd (fst pv)) (snd pv)))
        (combine (leaf_paths (type_of o)) (leaf_values o)).
Proof.
  revert prefix. induction o as [n T v | n bs IH] using obj_ind'; intros prefix.
  - reflexivity.
  - cbn [events type_of leaf_paths leaf_values].
    rewrite combine_map_l, map_map. cbn [fst snd accumulate fold_left].
    rewrite join_add_space.
    generalize (add_space prefix +++ n) as p. intros p.
    induction IH as [| c bs Hc _ IHbs]; [reflexivity |].
    cbn [flat_map map]. rewrite combine_app
      by (rewrite length_leaf_paths, length_leaf_values; reflexivity).
    rewrite map_app, <- IHbs, Hc. reflexivity.
Qed.

(** ** What operator+= leaves in the leaves *)

Lemma plus_obj_leaf_values (a b : obj) :
  type_of b = type_of a ->
  leaf_values (plus_obj a b)
  = sums (leaf_decls (type_of a)) (leaf_values a) (leaf_values b).
Proof.
  revert b. induction a as [n T v | n bs IH] using obj_ind'; intros [m U w | m cs] E;
    try discriminate E; [reflexivity |].
  cbn [plus_obj type_of leaf_values leaf_decls]. injection E as _ E. clear m.
  unfold sums.
  revert cs E. induction IH as [| c bs Hc _ IHbs]; intros [| d cs] E;
    try discriminate E; [reflexivity |].
  injection E as Ed E. cbn [zip_bases map flat_map].
  rewrite (Hc d Ed), (IHbs cs E). unfold sums.
  assert (List.length (leaf_values c) = List.length (leaf_values d)) as L
    by (rewrite !length_leaf_values, Ed; reflexivity).
  rewrite (combine_app (leaf_values c) _ (leaf_values d) _ L).
  rewrite combine_app
    by (rewrite length_combine, <- L, Nat.min_id, length_leaf_values; reflexivity).
  rewrite map_app. reflexivity.
Qed.

(** ** What rand_gen draws *)

Lemma draws_app (n m : nat) (g : Generator) :
  draws (n + m) g
  = (fst (draws n g) ++ fst (draws m (snd (draws n g))),
     snd (draws m (snd (draws n g)))).
Proof.
  revert g. induction n as [| n IH]; intros g; simpl.
  - destruct (draws m g). reflexivity.
  - destruct (normal_distribution 100 50 g) as [x g1]. rewrite IH.
    destruct (draws n g1) as [xs g2]. reflexivity.
Qed.

Lemma length_draws (n : nat) (g : Generator) : List.length (fst (draws n g)) = n.
Proof.
  revert g. induction n as [| n IH]; intros g; simpl; [reflexivity |].
  destruct (normal_distribution 100 50 g) as [x g1]. specialize (IH g1).
  destruct (draws n g1) as [xs g2]. simpl in *. rewrite IH. reflexivity.
Qed.

Lemma randomize_draws (o : obj) (g : Generator) :
  snd (randomize o g) = snd (draws (List.length (leaf_decls (type_of o))) g) /\
  leaf_values (fst (randomize o g))
  = converted (leaf_decls (type_of o))
      (fst (draws (List.length (leaf_decls (type_of o))) g)).
Proof.
  revert g. induction o as [n T v | n bs IH] using obj_ind'; intros g.
  - simpl. destruct (normal_distribution 100 50 g) as [x g1]. split; reflexivity.
  - cbn [randomize type_of leaf_decls].
    assert (snd (thread randomize bs g)
            = snd (draws (List.length (flat_map leaf_decls (map type_of bs))) g) /\
            flat_map leaf_values (fst (thread randomize bs g))
            = converted (flat_map leaf_decls (map type_of bs))
                (fst (draws (List.length (flat_map leaf_decls (map type_of bs))) g))) as K.
    { revert g. induction IH as [| c bs Hc _ IHbs]; intros g; [split; reflexivity |].
      cbn [thread map flat_map]. rewrite length_app, draws_app.
      destruct (Hc g) as [Hg Hv]. destruct (randomize c g) as [c' g1]. cbn [fst snd] in *.
      destruct (IHbs g1) as [Hg' Hv']. destruct (thread randomize bs g1) as [bs' g2].
      cbn [fst snd flat_map] in *. subst g1. split; [exact Hg' |].
      rewrite Hv, Hv'. unfold converted. rewrite combine_app by (rewrite length_draws; reflexivity).
      rewrite map_app. reflexivity. }
    destruct (thread randomize bs g) as [bs' g']. exact K.
Qed.

(** ** Default construction *)

Lemma construct_type (t : ty) : type_of (construct t) = t.
Proof.
  induction t as [n T | n cs IH] using ty_ind'; simpl; [reflexivity |].
  f_equal. rewrite map_map. induction IH as [| c cs Hc _ IHcs]; simpl; [reflexivity |].
  rewrite Hc, IHcs. reflexivity.
Qed.


(** ** An argument of another name

    [add_eq::apply] takes both trees as [Parent&]: an argument whose type is
    [InternalNode<RhsName, ChildNodes...>] with another name than [*this]
    binds to the parameter of [operator+=] and not to the one of [apply]. *)

Lemma get_other_name (Name RhsName : string) (ChildNodes : list ty) (arg : obj) :
  type_of arg = InternalNode RhsName ChildNodes ->
  Name <> RhsName ->
  get (InternalNode Name ChildNodes) arg = None.
Proof.
  intros E NE. unfold get. rewrite filter_none; [reflexivity |].
  intros x Hx. apply ty_eqb_neq. intros K.
  destruct arg as [n T v | n bs]; [discriminate E |].
  destruct Hx as [<- | Hx].
  - rewrite E in K. injection K as K. congruence.
  - apply subobject_type in Hx. apply (child_size n) in Hx.
    rewrite K in Hx. injection E as _ E. rewrite E in Hx. simpl in Hx. lia.
Qed.

Lemma operator_add_eq_other_name (Name RhsName : string) (Child : ty)
  (ChildNodes : list ty) (a arg : obj) :
  type_of arg = InternalNode RhsName (Child :: ChildNodes) ->
  Name <> RhsName ->
  operator_add_eq (InternalNode Name (Child :: ChildNodes)) a arg = None.
Proof.
  intros E NE. cbn [operator_add_eq].
  rewrite (deduce_same RhsName (Child :: ChildNodes) arg E). cbn [bind].
  rewrite (get_same _ _ E). cbn [bind].
  unfold inher_tree_scan. cbn [base_type empty inher_tree_scan_recur add_eq_apply].
  rewrite (get_other_name Name RhsName (Child :: ChildNodes) arg E NE).
  reflexivity.
Qed.

(** Shape-compatible operands: whenever the combination is accepted, it is
    the sum leaf by leaf and the right operand is handed back. *)
Lemma operator_add_eq_compatible (A B : obj) :
  well_formed (type_of A) = true ->
  shape_compatible (type_of A) (type_of B) = true ->
  forall r : obj * obj,
    operator_add_eq (type_of A) A B = Some r ->
    r = (plus_obj A B, B) /\
    type_of (plus_obj A B) = type_of A /\
    leaf_values (plus_obj A B)
    = sums (leaf_decls (type_of A)) (leaf_values A) (leaf_values B).
Proof.
  intros W C r R.
  assert (type_of B = type_of A ->
          r = (plus_obj A B, B) /\
          type_of (plus_obj A B) = type_of A /\
          leaf_values (plus_obj A B)
          = sums (leaf_decls (type_of A)) (leaf_values A) (leaf_values B)) as Same.
  { intros E. rewrite (operator_add_eq_plus A W B E) in R. injection R as <-.
    split; [reflexivity |]. split; [apply plus_obj_type | apply plus_obj_leaf_values]; exact E. }
  destruct A as [n T v | n bs], B as [m U w | m cs].
  - apply Same. symmetry. apply ty_eqb_eq. exact C.
  - apply ty_eqb_eq in C. discriminate C.
  - apply ty_eqb_eq in C. discriminate C.
  - cbn [type_of shape_compatible] in C. apply ty_eqb_eq in C. injection C as C.
    destruct (string_dec n m) as [-> | NE].
    + apply Same. cbn [type_of]. rewrite C. reflexivity.
    + destruct bs as [| c bs].
      * destruct cs as [| d cs]; [| discriminate C].
        cbn [type_of map operator_add_eq] in R.
        rewrite (deduce_same m [] (MkInternal m []) eq_refl) in R. cbn [bind] in R.
        rewrite (get_same (InternalNode m []) (MkInternal m []) eq_refl) in R.
        cbn [bind inher_tree_scan base_type empty inher_tree_scan_recur fst snd] in R.
        rewrite (put_same (InternalNode m []) (MkInternal m []) _ eq_refl) in R.
        injection R as <-. repeat split.
      * exfalso. cbn [type_of map] in R.
        rewrite (operator_add_eq_other_name n m (type_of c) (map type_of bs)
                   (MkInternal n (c :: bs)) (MkInternal m cs)) in R.
        -- discriminate R.
        -- cbn [type_of]. rewrite <- C. reflexivity.
        -- exact NE.
Qed.

(** X4.  For shape-compatible operands the combination is accepted exactly
    when the two trees are of one type or there is no child to combine: this
    is decided by the types alone. *)
Lemma operator_add_eq_accepted (A B : obj) :
  well_formed (type_of A) = true ->
  shape_compatible (type_of A) (type_of B) = true ->
  (exists r, operator_add_eq (type_of A) A B = Some r) <->
  (type_of B = type_of A \/ base_type (type_of A) = Some []).
Proof.
  intros W C. split.
  - intros [r R]. destruct A as [n T v | n bs], B as [m U w | m cs].
    + left. symmetry. apply ty_eqb_eq. exact C.
    + apply ty_eqb_eq in C. discriminate C.
    + apply ty_eqb_eq in C. discriminate C.
    + cbn [type_of shape_compatible] in C. apply ty_eqb_eq in C. injection C as C.
      destruct (string_dec n m) as [-> | NE]; [left; cbn [type_of]; rewrite C; reflexivity |].
      destruct bs as [| c bs]; [right; reflexivity |]. exfalso.
      cbn [type_of map] in R.
      rewrite (operator_add_eq_other_name n m (type_of c) (map type_of bs)
                 (MkInternal n (c :: bs)) (MkInternal m cs)) in R;
        [discriminate R | cbn [type_of]; rewrite <- C; reflexivity | exact NE].
  - intros [E | E].
    + exists (plus_obj A B, B). apply operator_add_eq_plus; assumption.
    + destruct A as [n T v | n bs]; [discriminate E |].
      destruct bs as [| c bs]; [| discriminate E].
      destruct B as [m U w | m cs]; [apply ty_eqb_eq in C; discriminate C |].
      cbn [type_of shape_compatible map] in C. apply ty_eqb_eq in C. injection C as C.
      destruct cs as [| d cs]; [| discriminate C].
      exists (MkInternal n [], MkInternal m []).
      cbn [type_of map operator_add_eq].
      rewrite (deduce_same m [] (MkInternal m []) eq_refl). cbn [bind].
      rewrite (get_same (InternalNode m []) (MkInternal m []) eq_refl).
      cbn [bind inher_tree_scan base_type empty inher_tree_scan_recur fst snd].
      rewrite (put_same (InternalNode m []) (MkInternal m []) _ eq_refl).
      reflexivity.
Qed.

(** * The specification, claim by claim *)

(** [inher_tree_scan] on an internal node calls [Func::apply] once for each
    direct child, in declaration order, each call on the state the call
    before left; on a node without children it does nothing. *)
Lemma inher_tree_scan_each_child :
  forall (Name : string) (ChildNodes : list ty),
    let Parent := InternalNode Name ChildNodes in
    (forall (World : Type) (apply : ty -> ty -> World -> option World) (w : World),
        inher_tree_scan apply Parent w = apply_each (apply Parent) ChildNodes w) /\
    (forall (World : Type) (apply : ty -> ty -> World -> option World) (w : World),
        inher_tree_scan apply (InternalNode Name []) w = Some w).
Proof.
  intros Name ChildNodes Parent. split.
  - intros World apply w. unfold inher_tree_scan. simpl.
    apply inher_tree_scan_recur_each.
  - reflexivity.
Qed.

(** For two well-formed shape-compatible trees [A] and [B], whenever
    [A += B] is accepted it leaves in every leaf of [A] the sum of what the
    leaf held and of what the same leaf of [B] holds, and the type of [A],
    that is the number, types and nesting of its children, is as before.
    It is accepted when the two trees are of one type. *)
Theorem add_eq_elementwise :
  forall A B : obj,
    well_formed (type_of A) = true ->
    shape_compatible (type_of A) (type_of B) = true ->
    (type_of B = type_of A ->
     exists A' B' : obj, operator_add_eq (type_of A) A B = Some (A', B')) /\
    (forall A' B' : obj,
        operator_add_eq (type_of A) A B = Some (A', B') ->
        type_of A' = type_of A /\
        List.length (leaf_values A') = List.length (leaf_values A) /\
        leaf_values A'
        = sums (leaf_decls (type_of A)) (leaf_values A) (leaf_values B)).
Proof.
  intros A B W C. split.
  - intros E. exists (plus_obj A B), B. apply operator_add_eq_plus; assumption.
  - intros A' B' R.
    destruct (operator_add_eq_compatible A B W C _ R) as (E & Ht & Hv).
    injection E as -> ->. split; [exact Ht |]. split; [| exact Hv].
    rewrite !length_leaf_values, Ht. reflexivity.
Qed.

(** C9.  For two well-formed shape-compatible trees [A] and [B], [A += B]
    hands [B] back as it received it: no leaf of the right operand changes.
    The two operands are two objects. *)
Theorem add_eq_keeps_rhs :
  forall A B : obj,
    well_formed (type_of A) = true ->
    shape_compatible (type_of A) (type_of B) = true ->
    (type_of B = type_of A ->
     exists A' B' : obj, operator_add_eq (type_of A) A B = Some (A', B')) /\
    (forall A' B' : obj,
        operator_add_eq (type_of A) A B = Some (A', B') ->
        B' = B /\ leaf_values B' = leaf_values B).
Proof.
  intros A B W C. split.
  - intros E. exists (plus_obj A B), B. apply operator_add_eq_plus; assumption.
  - intros A' B' R.
    destruct (operator_add_eq_compatible A B W C _ R) as (E & _).
    injection E as _ ->. split; reflexivity.
Qed.

(** C2.  Printing a well-formed tree visits each leaf once: the lines written
    are those of the visits, and the names in the visits are the leaf names
    the type declares, in declaration order. *)
Theorem print_visits_declared_leaves :
  forall o : obj,
    well_formed (type_of o) = true ->
    forall (prefix : string) (cout : ostream),
      print (type_of o) o prefix cout
      = Some (o, cout ++ map line_of (events prefix o)) /\
      map (fun e => snd (fst e)) (events prefix o) = leaf_names (type_of o) /\
      List.length (events prefix o) = List.length (leaf_decls (type_of o)).
Proof.
  intros o W prefix cout. split; [| split].
  - rewrite print_lines by exact W. rewrite lines_events. reflexivity.
  - apply events_names.
  - rewrite <- (length_map (fun e => snd (fst e))), events_names.
    unfold leaf_names. apply length_map.
Qed.

(** C8.  Printing twice writes the same lines twice: the first [print]
    leaves the tree as it was, and the second one, run after it, appends
    once more what the first appended. *)
Theorem print_twice_same_output :
  forall o : obj,
    well_formed (type_of o) = true ->
    forall (prefix : string) (cout : ostream),
      exists written : list string,
        print (type_of o) o prefix cout = Some (o, cout ++ written) /\
        print (type_of o) o prefix (cout ++ written)
        = Some (o, (cout ++ written) ++ written).
Proof.
  intros o W prefix cout. exists (lines prefix o).
  split; apply print_lines; exact W.
Qed.


(** C5, as amended.  Printing a well-formed tree writes one line per leaf.
    The line of a leaf is the accumulated prefix, one space and the name,
    then [ == ] and the value, and only the name, [ == ] and the value when
    the accumulated prefix is empty.  The accumulated prefix is the prefix
    given to [print] with the names of the internal nodes from the root down
    to the leaf appended, each after one space unless what is accumulated
    before it is empty: the path joined by spaces. *)
Theorem print_leaf_lines :
  forall o : obj,
    well_formed (type_of o) = true ->
    forall (prefix : string) (cout : ostream),
      print (type_of o) o prefix cout
      = Some (o, cout ++
                 map (fun pv => expected_line prefix (fst pv) (snd pv))
                     (combine (leaf_paths (type_of o)) (leaf_values o))) /\
      List.length (combine (leaf_paths (type_of o)) (leaf_values o))
      = List.length (leaf_decls (type_of o)) /\
      (forall accumulated Name text : string,
          accumulated <> EmptyString ->
          leaf_line accumulated Name text = spaced_line accumulated Name text) /\
      (forall Name text : string,
          leaf_line EmptyString Name text = Name +++ " == " +++ text) /\
      (forall path : list string,
          accumulate prefix path = String.concat " " (drop_empty (prefix :: path))).
Proof.
  intros o W prefix cout. split; [| split; [| split; [| split]]].
  - rewrite print_lines by exact W. rewrite lines_events, events_paths, map_map.
    do 3 f_equal. apply map_ext. intros [[[path n] T] v].
    unfold line_of, expected_line, leaf_line. cbn [fst snd].
    rewrite join_add_space, append_assoc. reflexivity.
  - rewrite length_combine, length_leaf_paths, length_leaf_values. apply Nat.min_id.
  - intros accumulated n text NE. unfold leaf_line, spaced_line, join.
    destruct (String.eqb accumulated "") eqn:E.
    + apply String.eqb_eq in E. contradiction.
    + rewrite !append_assoc. reflexivity.
  - reflexivity.
  - apply accumulate_concat.
Qed.

(** C6.  [rand_gen] followed by [print] on a well-formed tree: both return,
    and [print] writes as many lines as the type declares leaves. *)
Theorem rand_gen_then_print :
  forall o : obj,
    well_formed (type_of o) = true ->
    forall (g : Generator) (prefix : string) (cout : ostream),
      exists (o' : obj) (g' : Generator) (written : list string),
        rand_gen (type_of o) o g = Some (o', g') /\
        print (type_of o) o' prefix cout = Some (o', cout ++ written) /\
        List.length written = List.length (leaf_decls (type_of o)).
Proof.
  intros o W g prefix cout.
  exists (fst (randomize o g)), (snd (randomize o g)), (lines prefix (fst (randomize o g))).
  split; [| split].
  - rewrite rand_gen_randomize by exact W. destruct (randomize o g); reflexivity.
  - rewrite <- (randomize_type o g) at 1.
    apply print_lines. rewrite randomize_type. exact W.
  - rewrite lines_events, length_map.
    rewrite <- (length_map (fun e => snd (fst e))), events_names, randomize_type.
    unfold leaf_names. apply length_map.
Qed.

(** C7.  [rand_gen] on a well-formed tree draws once per leaf from
    [std::normal_distribution<> {100, 50}], in declaration order and each
    time from the generator as the draw before left it; every leaf holds its
    draw converted by [static_cast] to its own scalar type, and the type of
    the tree is as before. *)
Theorem rand_gen_one_draw_per_leaf :
  forall o : obj,
    well_formed (type_of o) = true ->
    forall g : Generator,
      let n := List.length (leaf_decls (type_of o)) in
      exists o' : obj,
        rand_gen (type_of o) o g = Some (o', snd (draws n g)) /\
        type_of o' = type_of o /\
        List.length (fst (draws n g)) = n /\
        leaf_values o' = converted (leaf_decls (type_of o)) (fst (draws n g)).
Proof.
  intros o W g n. exists (fst (randomize o g)).
  destruct (randomize_draws o g) as [Hg Hv].
  split; [| split; [| split]].
  - rewrite rand_gen_randomize by exact W. unfold n. rewrite <- Hg.
    destruct (randomize o g); reflexivity.
  - apply randomize_type.
  - apply length_draws.
  - exact Hv.
Qed.

End Properties.

(** * The claims on the tree of [main] *)

Section OnMain.

Open Scope string_scope.
Open Scope list_scope.

(** C4.  [operator+=] is declared for a right operand of any name,
    [InternalNode<RhsName, ChildNodes...>], and the scan then hands that
    operand to [add_eq::apply(Parent& a, Parent& b)]: with the same child and
    another name the combination is refused, with the same name it is
    accepted. *)
Theorem add_eq_rejects_other_name :
  operator_add_eq Lhs (construct Lhs) (construct Rhs) = None /\
  base_type Lhs = base_type Rhs /\
  operator_add_eq Lhs (construct Lhs) (construct Lhs)
  = Some (construct Lhs, construct Lhs).
Proof. repeat split. Qed.

(** C1.  Two shape-compatible trees, [lhs { A = 2 }] and [rhs { A = 3 }]:
    the same child and another root name.  [lhs += rhs] is refused, for the
    reason of C4, so that no leaf of [lhs] becomes 5; between two trees
    named [lhs] the same combination is accepted and leaves 5. *)
Theorem add_eq_shape_compatible_refused :
  well_formed Lhs = true /\
  shape_compatible Lhs Rhs = true /\
  operator_add_eq Lhs (MkInternal "lhs" [MkLeaf "A" t_int 2%Z])
                      (MkInternal "rhs" [MkLeaf "A" t_int 3%Z]) = None /\
  operator_add_eq Lhs (MkInternal "lhs" [MkLeaf "A" t_int 2%Z])
                      (MkInternal "lhs" [MkLeaf "A" t_int 3%Z])
  = Some (MkInternal "lhs" [MkLeaf "A" t_int 5%Z],
          MkInternal "lhs" [MkLeaf "A" t_int 3%Z]).
Proof. repeat split. Qed.

(** C3.  [inher_tree_scan< print_f >(pair, std::string("p"))]: the string is
    an rvalue and [print_f::apply] takes it by value.  The scan forwards the
    same pack at line 94 and again at lines 101-102, so the call for the
    first child moves from the string and the call for the second child gets
    the empty string: the two lines are [p A == 0] and [B == 0].  With an
    lvalue, as [InternalNode::print] passes it, both calls get [p]. *)
Theorem inher_tree_scan_forwards_rvalue_once :
  inher_tree_scan (print_f_apply_forwarded print rvalue) Pair
    (construct Pair, "p", [])
  = Some (construct Pair, "", ["p A == 0"; "B == 0"]) /\
  inher_tree_scan (print_f_apply_forwarded print lvalue) Pair
    (construct Pair, "p", [])
  = Some (construct Pair, "p", ["p A == 0"; "p B == 0"]) /\
  (forall (Parent Child : ty) (w : obj * string * ostream),
      print_f_apply_forwarded print lvalue Parent Child w
      = print_f_apply print Parent Child w).
Proof.
  split; [reflexivity | split; [reflexivity |]].
  intros Parent Child [[a ps] cout]. reflexivity.
Qed.


(** C5, as the specification words it: the line [A == 0] of the only leaf
    of a root with the empty name, printed without prefix, is no prefix
    followed by a space and the name. *)
Lemma print_empty_prefix_counterexample :
  print Anonymous (construct Anonymous) "" []
  = Some (construct Anonymous, ["A == 0"]) /\
  ~ (exists accumulated : string, "A == 0" = spaced_line accumulated "A" "0").
Proof.
  split; [reflexivity |].
  intros [accumulated H]. apply (f_equal String.length) in H.
  unfold spaced_line in H. rewrite length_append in H. simpl in H. lia.
Qed.

Lemma add_eq_elementwise_witness :
  (type_of foo_example = type_of bar_example ->
   exists A' B' : obj,
     operator_add_eq (type_of bar_example) bar_example foo_example = Some (A', B')) /\
  (forall A' B' : obj,
      operator_add_eq (type_of bar_example) bar_example foo_example = Some (A', B') ->
      type_of A' = type_of bar_example /\
      List.length (leaf_values A') = List.length (leaf_values bar_example) /\
      leaf_values A'
      = sums (leaf_decls (type_of bar_example)) (leaf_values bar_example)
          (leaf_values foo_example)).
Proof.
  apply (add_eq_elementwise bar_example foo_example); reflexivity.
Defined.

Lemma add_eq_keeps_rhs_witness :
  (type_of foo_example = type_of bar_example ->
   exists A' B' : obj,
     operator_add_eq (type_of bar_example) bar_example foo_example = Some (A', B')) /\
  (forall A' B' : obj,
      operator_add_eq (type_of bar_example) bar_example foo_example = Some (A', B') ->
      B' = foo_example /\ leaf_values B' = leaf_values foo_example).
Proof.
  apply (add_eq_keeps_rhs bar_example foo_example); reflexivity.
Defined.

Lemma print_visits_declared_leaves_witness :
  print (type_of bar_example) bar_example "bar" []
  = Some (bar_example, [] ++ map line_of (events "bar" bar_example)) /\
  map (fun e => snd (fst e)) (events "bar" bar_example)
  = leaf_names (type_of bar_example) /\
  List.length (events "bar" bar_example)
  = List.length (leaf_decls (type_of bar_example)).
Proof.
  apply (print_visits_declared_leaves bar_example); reflexivity.
Defined.

Lemma print_twice_same_output_witness :
  exists written : list string,
    print (type_of bar_example) bar_example "bar" [] = Some (bar_example, [] ++ written) /\
    print (type_of bar_example) bar_example "bar" ([] ++ written)
    = Some (bar_example, ([] ++ written) ++ written).
Proof.
  apply (print_twice_same_output bar_example); reflexivity.
Defined.

Lemma print_leaf_lines_witness :
  print (type_of bar_example) bar_example "bar" []
  = Some (bar_example,
          [] ++ map (fun pv => expected_line "bar" (fst pv) (snd pv))
                    (combine (leaf_paths (type_of bar_example))
                             (leaf_values bar_example))).
Proof.
  apply (print_leaf_lines bar_example); reflexivity.
Defined.

Lemma rand_gen_then_print_witness :
  exists (o' : obj) (g' : Generator) (written : list string),
    rand_gen (type_of bar_example) bar_example 7%Z = Some (o', g') /\
    print (type_of bar_example) o' "bar" [] = Some (o', [] ++ written) /\
    List.length written = List.length (leaf_decls (type_of bar_example)).
Proof.
  apply (rand_gen_then_print bar_example); reflexivity.
Defined.

Lemma rand_gen_one_draw_per_leaf_witness :
  exists o' : obj,
    rand_gen (type_of bar_example) bar_example 7%Z
    = Some (o', snd (draws (List.length (leaf_decls (type_of bar_example))) 7%Z)) /\
    type_of o' = type_of bar_example /\
    List.length (fst (draws (List.length (leaf_decls (type_of bar_example))) 7%Z))
    = List.length (leaf_decls (type_of bar_example)) /\
    leaf_values o'
    = converted (leaf_decls (type_of bar_example))
        (fst (draws (List.length (leaf_decls (type_of bar_example))) 7%Z)).
Proof.
  apply (rand_gen_one_draw_per_leaf bar_example); reflexivity.
Defined.

(** ** The scenario of the tree [one] *)

Example add_eq_bar_foo :
  operator_add_eq Bar bar_example foo_example
  = Some (MkInternal "one"
            [ MkLeaf "A" t_int 5%Z;
              MkLeaf "B" t_float 11%Z;
              MkInternal "two"
                [ MkLeaf "D" t_double 22%Z;
                  MkInternal "three" [ MkLeaf "E" t_long 33%Z ] ];
              MkLeaf "F" t_double 44%Z;
              MkLeaf "G" t_int 55%Z ],
          foo_example).
Proof. reflexivity. Qed.

Example print_bar :
  print Bar bar_example "bar" []
  = Some (bar_example,
          [ "bar one A == 2"; "bar one B == 10"; "bar one two D == 20";
            "bar one two three E == 30"; "bar one F == 40"; "bar one G == 50" ]).
Proof. reflexivity. Qed.

Example print_bar_default_prefix :
  option_map snd (print Bar bar_example "" [])
  = Some [ "one A == 2"; "one B == 10"; "one two D == 20";
           "one two three E == 30"; "one F == 40"; "one G == 50" ].
Proof. reflexivity. Qed.

Example construct_Bar :
  leaf_values (construct Bar) = [0; 0; 0; 0; 0; 0]%Z /\
  well_formed Bar = true.
Proof. split; reflexivity. Qed.

Example main_returns :
  option_map (fun r => (List.length (fst r), snd r))
             (@main Toy t_int t_float t_double t_long 7%Z)
  = Some (29, 0%Z).
Proof. reflexivity. Qed.

End OnMain.

(** * Further properties of the code *)

Section Further.

Context {PF : Platform}.

Local Notation "s +++ t" := (String.append s t)
  (at level 60, right associativity).

(** ** The conversion to a base class *)

Lemma filter_flat_map_single {A B : Type} (p : B -> bool) (f : A -> list B)
  (l : list A) (c : B) :
  filter p (flat_map f l) = [c] ->
  exists l1 x l2,
    l = l1 ++ x :: l2 /\ filter p (f x) = [c] /\
    Forall (fun y => filter p (f y) = []) l1 /\
    Forall (fun y => filter p (f y) = []) l2.
Proof.
  induction l as [| a l IH]; simpl; [discriminate |].
  rewrite filter_app. intros E.
  destruct (filter p (f a)) as [| b rest] eqn:Fa.
  - destruct (IH E) as (l1 & x & l2 & -> & Hx & H1 & H2).
    exists (a :: l1), x, l2. repeat split; try assumption.
    constructor; assumption.
  - injection E as -> E. apply app_eq_nil in E as [-> E].
    exists [], a, l. repeat split; try assumption; [constructor |].
    apply filter_flat_map_nil. exact E.
Qed.

Lemma put_same_leaves (T : ty) (c : obj) (l : list obj) :
  Forall (fun y => occ T y = []) l -> map (put T c) l = l.
Proof.
  induction 1 as [| y l Hy _ IH]; [reflexivity |].
  simpl. rewrite (put_absent T c y Hy), IH. reflexivity.
Qed.

Lemma put_type (T : ty) (c p : obj) :
  type_of c = T -> type_of (put T c p) = type_of p.
Proof.
  intros Ec. induction p as [n U v | n bs IH] using obj_ind'; cbn [put].
  - destruct (ty_eqb (type_of (MkLeaf n U v)) T) eqn:E; [| reflexivity].
    apply ty_eqb_eq in E. congruence.
  - destruct (ty_eqb (type_of (MkInternal n bs)) T) eqn:E.
    + apply ty_eqb_eq in E. congruence.
    + cbn [type_of]. f_equal. rewrite map_map. clear E.
      induction IH as [| b bs Hb _ IHbs]; [reflexivity |].
      cbn [map]. rewrite Hb, IHbs. reflexivity.
Qed.

Lemma occ_put_back (T : ty) (p c : obj) : occ T p = [c] -> put T c p = p.
Proof.
  revert c. induction p as [n U v | n bs IH] using obj_ind'; intros c;
    unfold occ; simpl subobjects; cbn [filter put].
  - destruct (ty_eqb (type_of (MkLeaf n U v)) T); [| discriminate].
    intros E. injection E as <-. reflexivity.
  - destruct (ty_eqb (type_of (MkInternal n bs)) T).
    + intros E. injection E as <- _. reflexivity.
    + intros E. apply filter_flat_map_single in E as (l1 & x & l2 & -> & Hx & H1 & H2).
      f_equal. rewrite map_app. cbn [map].
      rewrite (put_same_leaves T c l1 H1), (put_same_leaves T c l2 H2).
      rewrite Forall_forall in IH. rewrite (IH x (in_elt x l1 l2) c Hx). reflexivity.
Qed.

Lemma occ_put (T : ty) (p c0 c : obj) :
  occ T p = [c0] -> type_of c = T -> occ T (put T c p) = [c].
Proof.
  intros E Ec. revert c0 E.
  induction p as [n U v | n bs IH] using obj_ind'; intros c0;
    unfold occ at 1; simpl subobjects; cbn [filter put].
  - destruct (ty_eqb (type_of (MkLeaf n U v)) T); [| discriminate].
    intros _. rewrite <- Ec. apply occ_self.
  - destruct (ty_eqb (type_of (MkInternal n bs)) T) eqn:R.
    + intros _. rewrite <- Ec. apply occ_self.
    + intros E. apply filter_flat_map_single in E as (l1 & x & l2 & -> & Hx & H1 & H2).
      rewrite map_app. cbn [map].
      rewrite (put_same_leaves T c l1 H1), (put_same_leaves T c l2 H2).
      unfold occ. simpl subobjects. cbn [filter].
      assert (type_of (MkInternal n (l1 ++ put T c x :: l2))
              = type_of (MkInternal n (l1 ++ x :: l2))) as Et.
      { cbn [type_of]. rewrite !map_app. cbn [map]. rewrite (put_type T c x Ec). reflexivity. }
      rewrite Et, R. rewrite flat_map_app. cbn [flat_map]. rewrite !filter_app.
      rewrite (proj2 (filter_flat_map_nil _ subobjects l1) H1).
      rewrite (proj2 (filter_flat_map_nil _ subobjects l2) H2).
      rewrite Forall_forall in IH. fold (occ T (put T c x)).
      rewrite (IH x (in_elt x l1 l2) c0 Hx). reflexivity.
Qed.

Lemma get_occ (T : ty) (p c : obj) : get T p = Some c <-> occ T p = [c].
Proof.
  unfold get. fold (occ T p). split.
  - destruct (occ T p) as [| x [| y l]]; try discriminate. intros E. injection E as ->. reflexivity.
  - intros ->. reflexivity.
Qed.

(** X1.  [get<Child>(p)] is well-formed exactly when [Child] occurs once
    among the class of [p] and its base classes, which the types decide; what
    it returns is a subobject of [p] and has the type [Child]. *)
Theorem get_defined_iff_unambiguous :
  forall (Child : ty) (p : obj),
    ((exists c, get Child p = Some c) <->
     unambiguous_base Child (type_of p) = true) /\
    (forall c, get Child p = Some c ->
               type_of c = Child /\ In c (subobjects p)).
Proof.
  intros Child p. split; [split |].
  - intros [c G]. apply (get_unambiguous Child p c G).
  - intros U. unfold unambiguous_base in U. apply Nat.eqb_eq in U.
    rewrite <- length_occ in U. unfold get. fold (occ Child p).
    destruct (occ Child p) as [| x [| y l]]; try discriminate U.
    exists x. reflexivity.
  - intros c G. split; [apply (get_type Child p c G) |].
    apply get_occ in G. unfold occ in G.
    assert (In c (filter (fun s => ty_eqb (type_of s) Child) (subobjects p))) as H
      by (rewrite G; left; reflexivity).
    apply filter_In in H. apply H.
Qed.

(** X2.  The reference that [get<Child>(p)] returns stands for the subobject
    inside [p]: writing back what was read changes nothing, and after
    writing an object of type [Child] through it, [get<Child>] reads that
    object and [p] still has its type. *)
Theorem get_put_round_trip :
  forall (Child : ty) (p c : obj),
    get Child p = Some c ->
    put Child c p = p /\
    (forall c' : obj,
        type_of c' = Child ->
        get Child (put Child c' p) = Some c' /\
        type_of (put Child c' p) = type_of p).
Proof.
  intros Child p c G. apply get_occ in G. split.
  - apply occ_put_back. exact G.
  - intros c' Ec. split.
    + apply get_occ. apply (occ_put Child p c c' G Ec).
    + apply put_type. exact Ec.
Qed.

(** X3.  [print] instantiates exactly at the well-formed types: it returns
    for an object whose class converts to each direct base without
    ambiguity, at every level, and is refused for any other. *)
Theorem print_defined_iff_well_formed :
  forall (o : obj) (prefix : string) (cout : ostream),
    (exists r, print (type_of o) o prefix cout = Some r) <->
    well_formed (type_of o) = true.
Proof.
  intros o prefix cout. split.
  - intros [r R]. apply (print_well_formed o prefix cout r R).
  - intros W. eexists. apply print_lines. exact W.
Qed.

(** ** operator+= *)

(** X5.  [operator+=] of an internal node is refused when neither the class
    of the argument nor any of its base classes is an [InternalNode] with the
    child-type sequence of [*this]: there is nothing [rhs] can bind to. *)
Theorem add_eq_rejects_other_children :
  forall (Name : string) (ChildNodes : list ty) (self arg : obj),
    forallb (fun s => negb (is_InternalNode_of ChildNodes s))
            (subtypes (type_of arg)) = true ->
    operator_add_eq (InternalNode Name ChildNodes) self arg = None.
Proof.
  intros Name ChildNodes self arg H. cbn [operator_add_eq]. unfold deduce_RhsName.
  rewrite filter_none; [reflexivity |].
  intros x Hx. rewrite forallb_forall in H.
  apply negb_true_iff. apply H.
  rewrite <- type_of_subobjects. apply in_map. exact Hx.
Qed.

(** X6.  [+=] can be chained: after [A += B], [A += C] is accepted as well
    for trees of one well-formed type, and every leaf of [A] then holds what
    it held with the leaf of [B] and then the leaf of [C] added; [B] and [C]
    are as they were. *)
Theorem add_eq_twice :
  forall A B C : obj,
    well_formed (type_of A) = true ->
    type_of B = type_of A ->
    type_of C = type_of A ->
    exists A1 A2 : obj,
      operator_add_eq (type_of A) A B = Some (A1, B) /\
      operator_add_eq (type_of A) A1 C = Some (A2, C) /\
      type_of A2 = type_of A /\
      leaf_values A2
      = sums (leaf_decls (type_of A))
          (sums (leaf_decls (type_of A)) (leaf_values A) (leaf_values B))
          (leaf_values C).
Proof.
  intros A B C W EB EC.
  pose proof (plus_obj_type A B EB) as E1.
  assert (type_of C = type_of (plus_obj A B)) as EC1 by congruence.
  exists (plus_obj A B), (plus_obj (plus_obj A B) C). split; [| split; [| split]].
  - apply operator_add_eq_plus; assumption.
  - rewrite <- E1. apply operator_add_eq_plus; [rewrite E1; exact W | exact EC1].
  - rewrite (plus_obj_type _ C EC1). exact E1.
  - rewrite (plus_obj_leaf_values _ C EC1), E1, (plus_obj_leaf_values A B EB).
    reflexivity.
Qed.

(** ** rand_gen *)

Lemma randomize_same_type (o1 : obj) :
  forall (o2 : obj) (g : Generator),
    type_of o2 = type_of o1 -> randomize o2 g = randomize o1 g.
Proof.
  induction o1 as [n T v | n bs IH] using obj_ind'; intros [m U w | m cs] g E;
    try discriminate E.
  - injection E as -> ->. reflexivity.
  - injection E as -> E. cbn [randomize].
    assert (thread randomize cs g = thread randomize bs g) as K.
    { revert cs g E. induction IH as [| b bs Hb _ IHbs]; intros [| c cs] g E;
        try discriminate E; [reflexivity |].
      injection E as Ec E. cbn [thread]. rewrite (Hb c g Ec).
      destruct (randomize b g) as [b' g1]. rewrite (IHbs cs g1 E). reflexivity. }
    rewrite K. reflexivity.
Qed.

(** X7.  [rand_gen] assigns: what the leaves held before does not matter.
    Two trees of one well-formed type, randomized from the same generator
    state, come out equal and leave the generator in the same state. *)
Theorem rand_gen_overwrites :
  forall o1 o2 : obj,
    well_formed (type_of o1) = true ->
    type_of o2 = type_of o1 ->
    forall g : Generator,
      exists r : obj * Generator,
        rand_gen (type_of o1) o1 g = Some r /\
        rand_gen (type_of o1) o2 g = Some r.
Proof.
  intros o1 o2 W E g. exists (randomize o1 g). split.
  - apply rand_gen_randomize. exact W.
  - rewrite <- E. rewrite rand_gen_randomize by (rewrite E; exact W).
    rewrite (randomize_same_type o1 o2 g E). reflexivity.
Qed.

Lemma firstn_skipn_app {A : Type} (xs ys : list A) :
  firstn (List.length xs) (xs ++ ys) = xs /\ skipn (List.length xs) (xs ++ ys) = ys.
Proof.
  induction xs as [| x xs [IH1 IH2]]; [split; reflexivity |].
  simpl. rewrite IH1, IH2. split; reflexivity.
Qed.

(** X8.  Two trees randomized one after the other from one generator, as
    [main] does with [bar] and [foo], share no draw: the first takes as many
    draws as it has leaves, the second the draws that follow, and the
    generator is left after all of them. *)
Theorem rand_gen_in_sequence :
  forall o1 o2 : obj,
    well_formed (type_of o1) = true ->
    well_formed (type_of o2) = true ->
    forall g : Generator,
      let n1 := List.length (leaf_decls (type_of o1)) in
      let n2 := List.length (leaf_decls (type_of o2)) in
      exists (o1' o2' : obj) (g1 : Generator),
        rand_gen (type_of o1) o1 g = Some (o1', g1) /\
        rand_gen (type_of o2) o2 g1 = Some (o2', snd (draws (n1 + n2) g)) /\
        leaf_values o1'
        = converted (leaf_decls (type_of o1)) (firstn n1 (fst (draws (n1 + n2) g))) /\
        leaf_values o2'
        = converted (leaf_decls (type_of o2)) (skipn n1 (fst (draws (n1 + n2) g))).
Proof.
  intros o1 o2 W1 W2 g n1 n2.
  destruct (randomize_draws o1 g) as [G1 V1]. fold n1 in G1, V1.
  destruct (randomize_draws o2 (snd (draws n1 g))) as [G2 V2]. fold n2 in G2, V2.
  exists (fst (randomize o1 g)), (fst (randomize o2 (snd (draws n1 g)))), (snd (draws n1 g)).
  rewrite draws_app. cbn [fst snd].
  pose proof (firstn_skipn_app (fst (draws n1 g)) (fst (draws n2 (snd (draws n1 g)))))
    as [F K]. rewrite length_draws in F, K. rewrite F, K.
  split; [| split; [| split]].
  - rewrite rand_gen_randomize by exact W1. rewrite <- G1.
    destruct (randomize o1 g); reflexivity.
  - rewrite rand_gen_randomize by exact W2. rewrite <- G2.
    destruct (randomize o2 (snd (draws n1 g))); reflexivity.
  - exact V1.
  - exact V2.
Qed.

(** X9.  A well-formed tree without a leaf: [print] writes nothing and
    [rand_gen] draws nothing, the tree and the generator are as before. *)
Theorem no_leaf_no_effect :
  forall o : obj,
    well_formed (type_of o) = true ->
    leaf_decls (type_of o) = [] ->
    forall (prefix : string) (cout : ostream) (g : Generator),
      print (type_of o) o prefix cout = Some (o, cout) /\
      rand_gen (type_of o) o g = Some (o, g).
Proof.
  intros o W E prefix cout g. split.
  - rewrite print_lines by exact W. rewrite lines_events.
    assert (events prefix o = []) as ->.
    { apply length_zero_iff_nil.
      rewrite <- (length_map (fun e => snd (fst e))), events_names.
      unfold leaf_names. rewrite E. reflexivity. }
    rewrite app_nil_r. reflexivity.
  - rewrite rand_gen_randomize by exact W. f_equal.
    clear W. revert g. induction o as [n T v | n bs IH] using obj_ind'; intros g;
      [discriminate E |].
    cbn [randomize]. cbn [type_of leaf_decls] in E.
    assert (thread randomize bs g = (bs, g)) as ->; [| reflexivity].
    revert g. induction IH as [| b bs Hb _ IHbs]; intros g; [reflexivity |].
    cbn [map flat_map] in E. apply app_eq_nil in E as [Eb E].
    cbn [thread]. rewrite (Hb Eb g), (IHbs E g). reflexivity.
Qed.

(** ** print *)

Lemma lines_start_with_prefix (o : obj) :
  forall prefix : string,
    prefix <> EmptyString ->
    Forall (fun line => exists rest, line = prefix +++ " " +++ rest) (lines prefix o).
Proof.
  induction o as [n T v | n bs IH] using obj_ind'; intros prefix NE.
  - cbn [lines]. constructor; [| constructor].
    exists (n +++ " == " +++ insert T v).
    rewrite <- join_add_space. unfold join.
    destruct (String.eqb prefix "") eqn:E; [apply String.eqb_eq in E; contradiction |].
    reflexivity.
  - cbn [lines].
    assert (add_space prefix +++ n = prefix +++ " " +++ n) as ->.
    { rewrite <- join_add_space. unfold join.
      destruct (String.eqb prefix "") eqn:E; [apply String.eqb_eq in E; contradiction |].
      reflexivity. }
    assert (prefix +++ " " +++ n <> EmptyString) as NE'
      by (destruct prefix; [contradiction | discriminate]).
    induction IH as [| b bs Hb _ IHbs]; [constructor |].
    cbn [flat_map]. apply Forall_app. split; [| exact IHbs].
    specialize (Hb _ NE'). rewrite Forall_forall in *. intros line Hl.
    destruct (Hb line Hl) as [rest ->].
    exists (n +++ " " +++ rest). rewrite !append_assoc. reflexivity.
Qed.

(** X10.  Under a prefix that is not empty, every line that [print] writes
    begins with that prefix and a space: the label given to [print] marks
    each line of the tree. *)
Theorem print_lines_carry_prefix :
  forall o : obj,
    well_formed (type_of o) = true ->
    forall (prefix : string) (cout : ostream),
      prefix <> EmptyString ->
      exists written : list string,
        print (type_of o) o prefix cout = Some (o, cout ++ written) /\
        Forall (fun line => exists rest, line = prefix +++ " " +++ rest) written.
Proof.
  intros o W prefix cout NE. exists (lines prefix o).
  split; [apply print_lines; exact W | apply lines_start_with_prefix; exact NE].
Qed.

Lemma lines_expected (prefix : string) (o : obj) :
  lines prefix o
  = map (fun pv => expected_line prefix (fst pv) (snd pv))
        (combine (leaf_paths (type_of o)) (leaf_values o)).
Proof.
  rewrite lines_events, events_paths, map_map.
  apply map_ext. intros [[[path n] T] v].
  unfold line_of, expected_line, leaf_line. cbn [fst snd].
  rewrite join_add_space, append_assoc. reflexivity.
Qed.

End Further.

(** ** The further properties on the tree of [main] *)

Section FurtherOnMain.

Open Scope string_scope.
Open Scope list_scope.

Lemma get_put_round_trip_witness :
  put (@LeafNode Toy "A" t_int) (@MkLeaf Toy "A" t_int 2%Z) bar_example = bar_example /\
  (forall c' : obj,
      type_of c' = @LeafNode Toy "A" t_int ->
      get (@LeafNode Toy "A" t_int) (put (@LeafNode Toy "A" t_int) c' bar_example) = Some c' /\
      type_of (put (@LeafNode Toy "A" t_int) c' bar_example) = type_of bar_example).
Proof.
  apply (get_put_round_trip (@LeafNode Toy "A" t_int) bar_example (@MkLeaf Toy "A" t_int 2%Z)).
  reflexivity.
Defined.

Lemma operator_add_eq_accepted_witness :
  (exists r, operator_add_eq (type_of bar_example) bar_example foo_example = Some r) <->
  (type_of foo_example = type_of bar_example \/
   base_type (type_of bar_example) = Some []).
Proof.
  apply (operator_add_eq_accepted bar_example foo_example); reflexivity.
Defined.

Lemma add_eq_rejects_other_children_witness :
  operator_add_eq (InternalNode "lhs" [@LeafNode Toy "A" t_int]) (construct Lhs) bar_example
  = None.
Proof.
  apply (add_eq_rejects_other_children "lhs" [@LeafNode Toy "A" t_int] (construct Lhs)
           bar_example).
  reflexivity.
Defined.

Lemma add_eq_twice_witness :
  exists A1 A2 : obj,
    operator_add_eq (type_of bar_example) bar_example foo_example = Some (A1, foo_example) /\
    operator_add_eq (type_of bar_example) A1 foo_example = Some (A2, foo_example) /\
    type_of A2 = type_of bar_example /\
    leaf_values A2
    = sums (leaf_decls (type_of bar_example))
        (sums (leaf_decls (type_of bar_example)) (leaf_values bar_example)
           (leaf_values foo_example))
        (leaf_values foo_example).
Proof.
  apply (add_eq_twice bar_example foo_example foo_example); reflexivity.
Defined.

Lemma rand_gen_overwrites_witness :
  exists r : obj * Generator,
    rand_gen (type_of bar_example) bar_example 7%Z = Some r /\
    rand_gen (type_of bar_example) foo_example 7%Z = Some r.
Proof.
  apply (rand_gen_overwrites bar_example foo_example); reflexivity.
Defined.

Lemma rand_gen_in_sequence_witness :
  exists (o1' o2' : obj) (g1 : Generator),
    rand_gen (type_of bar_example) bar_example 7%Z = Some (o1', g1) /\
    rand_gen (type_of foo_example) foo_example g1
    = Some (o2', snd (draws (List.length (leaf_decls (type_of bar_example))
                             + List.length (leaf_decls (type_of foo_example))) 7%Z)) /\
    leaf_values o1'
    = converted (leaf_decls (type_of bar_example))
        (firstn (List.length (leaf_decls (type_of bar_example)))
           (fst (draws (List.length (leaf_decls (type_of bar_example))
                        + List.length (leaf_decls (type_of foo_example))) 7%Z))) /\
    leaf_values o2'
    = converted (leaf_decls (type_of foo_example))
        (skipn (List.length (leaf_decls (type_of bar_example)))
           (fst (draws (List.length (leaf_decls (type_of bar_example))
                        + List.length (leaf_decls (type_of foo_example))) 7%Z))).
Proof.
  apply (rand_gen_in_sequence bar_example foo_example); reflexivity.
Defined.

Lemma no_leaf_no_effect_witness :
  print (type_of (MkInternal "outer" [MkInternal "inner" []]))
    (MkInternal "outer" [MkInternal "inner" []]) "p" []
  = Some (MkInternal "outer" [MkInternal "inner" []], []) /\
  rand_gen (type_of (MkInternal "outer" [MkInternal "inner" []]))
    (MkInternal "outer" [MkInternal "inner" []]) 7%Z
  = Some (MkInternal "outer" [MkInternal "inner" []], 7%Z).
Proof.
  apply (@no_leaf_no_effect Toy (MkInternal "outer" [MkInternal "inner" []]));
    reflexivity.
Defined.

Lemma print_lines_carry_prefix_witness :
  exists written : list string,
    print (type_of bar_example) bar_example "bar" [] = Some (bar_example, [] ++ written) /\
    Forall (fun line => exists rest, line = String.append "bar" (String.append " " rest))
           written.
Proof.
  apply (print_lines_carry_prefix bar_example); [reflexivity | discriminate].
Defined.

End FurtherOnMain.

(** ** main *)

Section FurtherProgram.

Context {PF : Platform}.
Variables c_int c_float c_double c_long : scalar.

Lemma print_lines_at (t : ty) (o : obj) (prefix : string) (cout : ostream) :
  type_of o = t -> well_formed t = true ->
  print t o prefix cout = Some (o, cout ++ lines prefix o).
Proof. intros <- W. apply print_lines. exact W. Qed.

(** The tree of [main] is well formed, whatever the four scalar types are:
    its classes have nine different names. *)
Lemma Bar_on_well_formed :
  well_formed (Bar_on c_int c_float c_double c_long) = true.
Proof.
  cbn.
  repeat match goal with
         | |- context [scalar_eq_dec ?x ?x] =>
             destruct (scalar_eq_dec x x); [| congruence]
         end.
  reflexivity.
Qed.

(** X11.  [main], on every platform and whatever the seed: it randomizes
    [bar] from the first six draws and [foo] from the next six, writes the
    six lines of [bar] under the label [bar], an empty line, the six lines of
    [foo] under [foo], an empty line, the line [bar += foo] followed by an
    empty line, then [bar] again with each leaf holding the sum of the two,
    an empty line, [foo] exactly as it was first written, an empty line; and
    it returns 0. *)
Theorem main_output :
  forall gen : Generator,
    let Bar := Bar_on c_int c_float c_double c_long in
    let xs := fst (draws 12 gen) in
    let bar := converted (leaf_decls Bar) (firstn 6 xs) in
    let foo := converted (leaf_decls Bar) (skipn 6 xs) in
    let printed := fun (prefix : string) (vals : list value) =>
      map (fun pv => expected_line prefix (fst pv) (snd pv))
          (combine (leaf_paths Bar) vals) in
    main c_int c_float c_double c_long gen
    = Some (printed "bar"%string bar ++ [EmptyString] ++
            printed "foo"%string foo ++ [EmptyString] ++
            [String.append "bar += foo" LF] ++
            printed "bar"%string (sums (leaf_decls Bar) bar foo) ++
            [EmptyString] ++
            printed "foo"%string foo ++ [EmptyString],
            0%Z).
Proof.
  intros gen Bar xs bar foo printed.
  pose proof Bar_on_well_formed as W. fold Bar in W.
  assert (type_of (construct Bar) = Bar) as TC by apply construct_type.
  assert (List.length (leaf_decls Bar) = 6) as L6 by reflexivity.
  pose proof (randomize_draws (construct Bar) gen) as [G1 V1].
  pose proof (randomize_type (construct Bar) gen) as T1.
  pose proof (rand_gen_randomize (construct Bar)) as R1.
  rewrite TC in G1, V1, T1, R1. rewrite L6 in G1, V1. specialize (R1 W gen).
  destruct (randomize (construct Bar) gen) as [b g1]. cbn [fst snd] in G1, V1, T1.
  pose proof (randomize_draws (construct Bar) g1) as [G2 V2].
  pose proof (randomize_type (construct Bar) g1) as T2.
  pose proof (rand_gen_randomize (construct Bar)) as R2.
  rewrite TC in G2, V2, T2, R2. rewrite L6 in G2, V2. specialize (R2 W g1).
  destruct (randomize (construct Bar) g1) as [f g2]. cbn [fst snd] in G2, V2, T2.
  assert (operator_add_eq Bar b f = Some (plus_obj b f, f)) as P.
  { rewrite <- T1. apply operator_add_eq_plus; [rewrite T1; exact W | congruence]. }
  assert (type_of (plus_obj b f) = Bar) as T3
    by (rewrite plus_obj_type; congruence).
  unfold main. fold Bar. rewrite R1. cbn [bind]. rewrite R2. cbn [bind].
  rewrite (print_lines_at Bar b "bar" [] T1 W). cbn [bind].
  rewrite (print_lines_at Bar f "foo" _ T2 W). cbn [bind].
  rewrite P. cbn [bind].
  rewrite (print_lines_at Bar (plus_obj b f) "bar" _ T3 W). cbn [bind].
  rewrite (print_lines_at Bar f "foo" _ T2 W). cbn [bind].
  rewrite !lines_expected, T1, T2, T3.
  rewrite plus_obj_leaf_values by congruence. rewrite T1.
  assert (leaf_values b = bar /\ leaf_values f = foo) as [-> ->].
  { unfold bar, foo, xs. change 12 with (6 + 6). rewrite draws_app. cbn [fst].
    pose proof (firstn_skipn_app (fst (draws 6 gen)) (fst (draws 6 (snd (draws 6 gen)))))
      as [F K]. rewrite length_draws in F, K. rewrite F, K.
    rewrite V1, V2, G1. split; reflexivity. }
  unfold printed. rewrite <- !app_assoc. reflexivity.
Qed.

End FurtherProgram.
